(** * The event hooks of [Game] (src/game.js)

    The game registers three callbacks on a matter.js engine:
    [beforeUpdate] (lines 37-48), [afterUpdate] (lines 50-64) and
    [collisionStart] (lines 68-83).  They read and write body objects that
    are shared by reference between the world, the [parts] arrays, the
    [parent] fields and the collision pairs, so the embedding is a store of
    objects addressed by reference:

    - a body reference is a key of the body heap, a vector reference a key of
      the vector heap; [part.velocityPrev = part.velocity] copies a
      reference, it does not copy the vector;
    - the world is a matter.js composite: a list of bodies and a list of
      nested composites;
    - numbers are the exact rationals (the IEEE rounding of the JavaScript
      doubles is not modelled); [Math.floor] of a magnitude is an integer,
      and [shockAbsorbed], which only ever receives such integers, is
      [undefined], [NaN] or an integer. *)

From Stdlib Require Import List Bool Arith ZArith QArith Qround String Lia Lqa.
Import ListNotations.

Local Open Scope Z_scope.

(** ** JavaScript values of the [shockAbsorbed] field *)

Inductive JsNumber : Type :=
| Undefined
| NaN
| Number (z : Z).

(** [v || 0]: [undefined], [NaN] and [0] are falsy. *)
Definition or_zero (v : JsNumber) : JsNumber :=
  match v with
  | Number z => Number z
  | Undefined | NaN => Number 0
  end.

(** [a + b] on numbers; [undefined] converts to [NaN]. *)
Definition js_add (a b : JsNumber) : JsNumber :=
  match a, b with
  | Number za, Number zb => Number (za + zb)
  | _, _ => NaN
  end.

(** [v > n]; a comparison with [undefined] or [NaN] is false. *)
Definition js_gt (v : JsNumber) (n : Z) : bool :=
  match v with
  | Number z => n <? z
  | Undefined | NaN => false
  end.

(** The integer a counter stands for once read through [|| 0]. *)
Definition total_of (v : JsNumber) : Z :=
  match v with
  | Number z => z
  | Undefined | NaN => 0
  end.

(** ** Engine primitives used by the hooks (matter.js)

    The engine is a dependency of the game, not part of its sources.  What
    the three handlers call of it is written here after matter.js's own
    [Vector] and [Composite] modules: these are the "body/world primitives"
    and the "composite-removal semantics" the game consumes as they are. *)

(** References into the body heap and into the vector heap. *)
#[warnings="-notation-for-abbreviation"]
Notation BodyRef := nat (only parsing).
#[warnings="-notation-for-abbreviation"]
Notation VecRef := nat (only parsing).

Module Matter.

Record Vector : Type := MkVector { x : Q; y : Q }.

Module Vector.

(** [Vector.mult(vector, scalar)] *)
Definition mult (v : Vector) (scalar : Q) : Vector :=
  MkVector (x v * scalar)%Q (y v * scalar)%Q.

(** [Vector.sub(vectorA, vectorB)] *)
Definition sub (a b : Vector) : Vector :=
  MkVector (x a - x b)%Q (y a - y b)%Q.

(** [Vector.magnitudeSquared(vector)] *)
Definition magnitudeSquared (v : Vector) : Q :=
  (x v * x v + y v * y v)%Q.

(** [Math.floor(Vector.magnitude(vector))]: the magnitude is the square
    root of [magnitudeSquared], and the floor of the square root of a
    rational is the integer square root of its floor. *)
Definition floor_magnitude (v : Vector) : Z :=
  Z.sqrt (Qfloor (magnitudeSquared v)).

(** Component-wise equality of rationals. *)
Definition equiv (a b : Vector) : Prop :=
  (x a == x b)%Q /\ (y a == y b)%Q.

Definition zero : Vector := MkVector 0%Q 0%Q.

End Vector.

(** A composite: [composite.bodies] and [composite.composites]. *)
#[warnings="-register-all"]
Inductive Composite : Type :=
| MkComposite (bodies : list BodyRef) (composites : list Composite).

Module Composite.

(** [Composite.allBodies(composite)]: a fresh array with the bodies of
    the composite followed by those of its nested composites. *)
Fixpoint allBodies (c : Composite) : list BodyRef :=
  match c with
  | MkComposite bodies composites => bodies ++ flat_map allBodies composites
  end.

(** [Common.indexOf] followed by [splice(position, 1)]: the first
    occurrence is taken out, nothing happens when there is none. *)
Fixpoint remove_first (b : BodyRef) (l : list BodyRef) : list BodyRef :=
  match l with
  | [] => []
  | b' :: l' => if Nat.eqb b' b then l' else b' :: remove_first b l'
  end.

(** [Composite.removeBody(composite, body, deep)] *)
Fixpoint removeBody (c : Composite) (b : BodyRef) (deep : bool) : Composite :=
  match c with
  | MkComposite bodies composites =>
      MkComposite (remove_first b bodies)
        (if deep then map (fun c' => removeBody c' b true) composites
         else composites)
  end.

(** [Composite.remove(composite, object, deep)] for an object of type
    ['body']. *)
Definition remove (c : Composite) (b : BodyRef) (deep : bool) : Composite :=
  removeBody c b deep.

End Composite.

End Matter.

Import Matter.

(** Induction on a composite with the hypothesis for every nested composite. *)
Fixpoint Composite_nested_ind (P : Composite -> Prop)
    (H : forall bodies composites,
        Forall P composites -> P (MkComposite bodies composites))
    (c : Composite) : P c :=
  match c with
  | MkComposite bodies composites =>
      H bodies composites
        ((fix all (l : list Composite) : Forall P l :=
            match l with
            | [] => Forall_nil P
            | c' :: l' => Forall_cons c' (Composite_nested_ind P H c') (all l')
            end) composites)
  end.

(** ** Bodies and the simulation state *)

Record Body : Type := MkBody {
  label : string;
  isStatic : bool;
  isSleeping : bool;
  mass : Q;
  angle : Q;
  velocity : VecRef;
  velocityPrev : option VecRef;     (* [None]: the field was never assigned *)
  shockAbsorbed : JsNumber;
  parts : list BodyRef;
  parent : BodyRef
}.

Definition set_angle (a : Q) (b : Body) : Body :=
  MkBody (label b) (isStatic b) (isSleeping b) (mass b) a (velocity b)
         (velocityPrev b) (shockAbsorbed b) (parts b) (parent b).

Definition set_velocityPrev (v : option VecRef) (b : Body) : Body :=
  MkBody (label b) (isStatic b) (isSleeping b) (mass b) (angle b) (velocity b)
         v (shockAbsorbed b) (parts b) (parent b).

Definition set_shockAbsorbed (s : JsNumber) (b : Body) : Body :=
  MkBody (label b) (isStatic b) (isSleeping b) (mass b) (angle b) (velocity b)
         (velocityPrev b) s (parts b) (parent b).

Definition Heap := BodyRef -> Body.

(** Writing the object at reference [r]. *)
Definition upd (h : Heap) (r : BodyRef) (b : Body) : Heap :=
  fun r' => if Nat.eqb r' r then b else h r'.

Record State : Type := MkState {
  world : Composite;
  heap : Heap;
  vecs : VecRef -> Vector
}.

Definition with_world (w : Composite) (st : State) : State :=
  MkState w (heap st) (vecs st).

Definition with_heap (h : Heap) (st : State) : State :=
  MkState (world st) h (vecs st).

(** Field assignments [ref.field = value] on the state. *)
Definition assign_angle (r : BodyRef) (a : Q) (st : State) : State :=
  with_heap (upd (heap st) r (set_angle a (heap st r))) st.

Definition assign_velocityPrev (r : BodyRef) (v : option VecRef) (st : State) : State :=
  with_heap (upd (heap st) r (set_velocityPrev v (heap st r))) st.

Definition assign_shockAbsorbed (r : BodyRef) (s : JsNumber) (st : State) : State :=
  with_heap (upd (heap st) r (set_shockAbsorbed s (heap st r))) st.

(** ** beforeUpdate (game.js 37-48) *)

(** The test of line 41: [part.label == "Projectile" && part.isSleeping]. *)
Definition asleep_projectile (st : State) (part : BodyRef) : bool :=
  String.eqb (label (heap st part)) "Projectile" && isSleeping (heap st part).

Definition beforeUpdate_part (st : State) (part : BodyRef) : State :=
  if asleep_projectile st part
  then with_world (Composite.remove (world st) part true) st
  else assign_velocityPrev part (Some (velocity (heap st part))) st.

Definition beforeUpdate_body (st : State) (body : BodyRef) : State :=
  fold_left beforeUpdate_part (parts (heap st body)) st.

Definition beforeUpdate (st : State) : State :=
  let bodies := Composite.allBodies (world st) in
  fold_left beforeUpdate_body bodies st.

(** ** afterUpdate (game.js 50-64) *)

Definition sync_part (body : BodyRef) (st : State) (part : BodyRef) : State :=
  assign_angle part (angle (heap st body)) st.

(** Lines 53-57: the angle synchronisation of one body. *)
Definition synced (st : State) (body : BodyRef) : State :=
  if (1 <? List.length (parts (heap st body)))%nat
  then fold_left (sync_part body) (parts (heap st body)) st
  else st.

(** Lines 53-62: the synchronisation, then the threshold test. *)
Definition afterUpdate_body (st : State) (body : BodyRef) : State :=
  let st1 := synced st body in
  if String.eqb (label (heap st1 body)) "Block"
  then if js_gt (shockAbsorbed (heap st1 body)) 500
       then with_world (Composite.remove (world st1) body true) st1
       else st1
  else st1.

Definition afterUpdate (st : State) : State :=
  let bodies := Composite.allBodies (world st) in
  fold_left afterUpdate_body bodies st.

(** ** collisionStart (game.js 68-83) *)

Record Pair : Type := MkPair { bodyA : BodyRef; bodyB : BodyRef }.

(** How a handler ends: normally, or with the [TypeError] that
    [Vector.mult] raises when it reads [.x] of an undefined [velocityPrev].
    Either way the state reached so far stays in place. *)
Inductive Completion : Type :=
| Normal (st : State)
| TypeError (st : State).

Definition state_of (c : Completion) : State :=
  match c with Normal st | TypeError st => st end.

(** [Vector.mult(body.velocityPrev, body.isStatic ? 0 : body.mass)] *)
Definition momentum (st : State) (r : BodyRef) : option Vector :=
  match velocityPrev (heap st r) with
  | None => None
  | Some v =>
      Some (Vector.mult (vecs st v)
              (if isStatic (heap st r) then 0%Q else mass (heap st r)))
  end.

(** [Math.floor(mag)] for the pair. *)
Definition shock (st : State) (p : Pair) : option Z :=
  match momentum st (bodyA p), momentum st (bodyB p) with
  | Some momentumA, Some momentumB =>
      Some (Vector.floor_magnitude (Vector.sub momentumA momentumB))
  | _, _ => None
  end.

(** Lines 73-76 (for [bodyA]) and 78-81 (for [bodyB]), statement by
    statement. *)
Definition absorb (b : BodyRef) (s : Z) (st : State) : State :=
  let st1 := assign_shockAbsorbed b (or_zero (shockAbsorbed (heap st b))) st in
  let st2 := assign_shockAbsorbed b
               (js_add (shockAbsorbed (heap st1 b)) (Number s)) st1 in
  let p := parent (heap st2 b) in
  let st3 := assign_shockAbsorbed p (or_zero (shockAbsorbed (heap st2 p))) st2 in
  let p' := parent (heap st3 b) in
  assign_shockAbsorbed p'
    (js_add (shockAbsorbed (heap st3 p')) (shockAbsorbed (heap st3 b))) st3.

Definition collisionStart_pair (st : State) (p : Pair) : Completion :=
  match shock st p with
  | None => TypeError st
  | Some s => Normal (absorb (bodyB p) s (absorb (bodyA p) s st))
  end.

Fixpoint collisionStart (pairs : list Pair) (st : State) : Completion :=
  match pairs with
  | [] => Normal st
  | p :: rest =>
      match collisionStart_pair st p with
      | Normal st' => collisionStart rest st'
      | TypeError st' => TypeError st'
      end
  end.

(** The in-place write [body.velocity.x = vx; body.velocity.y = vy] with
    which the engine's integrator ([Body.update]) and [Body.setVelocity]
    publish a new velocity: the vector object stays, its components change. *)
Definition write_velocity (r : BodyRef) (v : Vector) (st : State) : State :=
  MkState (world st) (heap st)
          (fun k => if Nat.eqb k (velocity (heap st r)) then v else vecs st k).

(** Reading [body.velocityPrev] through the vector heap. *)
Definition read_velocityPrev (st : State) (r : BodyRef) : option Vector :=
  option_map (vecs st) (velocityPrev (heap st r)).

Definition read_velocity (st : State) (r : BodyRef) : Vector :=
  vecs st (velocity (heap st r)).

(** Two bodies that agree on every field but [shockAbsorbed]. *)
Definition same_but_shock (b b' : Body) : Prop :=
  label b' = label b /\ isStatic b' = isStatic b /\
  isSleeping b' = isSleeping b /\ mass b' = mass b /\ angle b' = angle b /\
  velocity b' = velocity b /\ velocityPrev b' = velocityPrev b /\
  parts b' = parts b /\ parent b' = parent b.

(** Two bodies that agree on every field but [angle]. *)
Definition same_but_angle (b b' : Body) : Prop :=
  label b' = label b /\ isStatic b' = isStatic b /\
  isSleeping b' = isSleeping b /\ mass b' = mass b /\
  velocity b' = velocity b /\ velocityPrev b' = velocityPrev b /\
  shockAbsorbed b' = shockAbsorbed b /\
  parts b' = parts b /\ parent b' = parent b.

(** Two bodies that agree on every field but [velocityPrev]. *)
Definition same_but_velocityPrev (b b' : Body) : Prop :=
  label b' = label b /\ isStatic b' = isStatic b /\
  isSleeping b' = isSleeping b /\ mass b' = mass b /\ angle b' = angle b /\
  velocity b' = velocity b /\ shockAbsorbed b' = shockAbsorbed b /\
  parts b' = parts b /\ parent b' = parent b.

(** How many times a body occurs among the bodies of a composite. *)
Definition occurrences (r : BodyRef) (c : Composite) : nat :=
  count_occ Nat.eq_dec (Composite.allBodies c) r.

(** The structure [Body.setParts] maintains for the bodies of a world: a
    body of the world is its own parent, and the parent of each of its
    parts. *)
Definition owns (st : State) (b : BodyRef) : Prop :=
  parent (heap st b) = b /\
  forall q, In q (parts (heap st b)) -> parent (heap st q) = b.

Definition parts_owned (st : State) : Prop :=
  forall b, In b (Composite.allBodies (world st)) -> owns st b.

(** The two bodies of a pair and their two parents are four different
    objects: two child parts of two different compound bodies. *)
Definition separate (st : State) (p : Pair) : Prop :=
  bodyA p <> bodyB p /\
  parent (heap st (bodyA p)) <> bodyA p /\
  parent (heap st (bodyA p)) <> bodyB p /\
  parent (heap st (bodyB p)) <> bodyA p /\
  parent (heap st (bodyB p)) <> bodyB p /\
  parent (heap st (bodyA p)) <> parent (heap st (bodyB p)).

(** [shockAbsorbed] is "0 or uninitialized". *)
Definition untouched (v : JsNumber) : Prop := v = Undefined \/ v = Number 0.

(** ** The accumulation as the specification words it

    "Add this value to shockAbsorbed on the body's specific part, and
    separately add the new (just-incremented) part-level value to the parent
    compound's shockAbsorbed", with the field "lazily initialized to 0 on
    first touch". *)

Definition add_shock (r : BodyRef) (d : Z) (st : State) : State :=
  assign_shockAbsorbed r (Number (total_of (shockAbsorbed (heap st r)) + d)) st.

Definition accumulate (b : BodyRef) (s : Z) (st : State) : State :=
  let st1 := add_shock b s st in
  add_shock (parent (heap st1 b)) (total_of (shockAbsorbed (heap st1 b))) st1.

(** ** Scenes used to run the hooks on concrete inputs *)

(** A freshly created body: not sleeping, angle 0, no [velocityPrev], no
    [shockAbsorbed]. *)
Definition fresh_body (lbl : string) (static : bool) (m : Q) (v : VecRef)
    (ps : list BodyRef) (par : BodyRef) : Body :=
  MkBody lbl static false m 0 v None Undefined ps par.

(** The same body once a pre-step pass has visited it: [velocityPrev]
    refers to its velocity vector. *)
Definition snapshot_body (lbl : string) (static : bool) (m : Q) (v : VecRef)
    (ps : list BodyRef) (par : BodyRef) : Body :=
  set_velocityPrev (Some v) (fresh_body lbl static m v ps par).

(** A heap whose references are the positions of a list. *)
Definition heap_of (l : list Body) : Heap :=
  fun r => nth r l (fresh_body "Body" false 1 0 [r] r).

Definition vecs_of (l : list Vector) : VecRef -> Vector :=
  fun k => nth k l Vector.zero.

(** Two plain bodies, each its own single part and its own parent, after a
    pre-step pass: A (reference 0) has mass 2 and velocity (3,0), B
    (reference 1) has mass 1 and is at rest. *)
Definition plain_scene : State :=
  MkState (MkComposite [0; 1]%nat [])
    (heap_of
       [ snapshot_body "Block" false 2 0 [0]%nat 0;
         snapshot_body "Block" false 1 1 [1]%nat 1 ])
    (vecs_of [MkVector 3 0; MkVector 0 0]).

(** Two compound bodies (references 0 and 2) with one child part each
    (references 1 and 3); the parts carry the masses and velocities of
    [plain_scene]. *)
Definition compound_scene : State :=
  MkState (MkComposite [0; 2]%nat [])
    (heap_of
       [ snapshot_body "Block" false 2 0 [0; 1]%nat 0;
         snapshot_body "Block" false 2 1 [1]%nat 0;
         snapshot_body "Block" false 1 2 [2; 3]%nat 2;
         snapshot_body "Block" false 1 3 [3]%nat 2 ])
    (vecs_of [MkVector 3 0; MkVector 3 0; MkVector 0 0; MkVector 0 0]).

(** A dynamic block (reference 0, mass 2, velocity (3,0)) and the static
    ground (reference 1), whose own velocity record is (7,7). *)
Definition ground_scene : State :=
  MkState (MkComposite [0; 1]%nat [])
    (heap_of
       [ snapshot_body "Block" false 2 0 [0]%nat 0;
         snapshot_body "Ground" true 5 1 [1]%nat 1 ])
    (vecs_of [MkVector 3 0; MkVector 7 7]).

(** The ground (reference 0) and, in a nested composite, two blocks: one
    whose [shockAbsorbed] is 501 (reference 1) and one that was never hit
    (reference 2). *)
Definition damaged_scene : State :=
  MkState (MkComposite [0]%nat [MkComposite [1; 2]%nat []])
    (heap_of
       [ fresh_body "Ground" true 5 0 [0]%nat 0;
         set_shockAbsorbed (Number 501) (fresh_body "Block" false 2 1 [1]%nat 1);
         fresh_body "Block" false 2 2 [2]%nat 2 ])
    (vecs_of []).

(** A compound body (reference 0) turned to angle 1/2 by the integrator
    while its two child parts (references 1 and 2) are still at angle 0. *)
Definition tilted_scene : State :=
  MkState (MkComposite [0]%nat [])
    (heap_of
       [ set_angle (1 # 2) (fresh_body "Block" false 2 0 [0; 1; 2]%nat 0);
         fresh_body "Block" false 1 1 [1]%nat 0;
         fresh_body "Block" false 1 2 [2]%nat 0 ])
    (vecs_of []).

(** A projectile asleep on the ground (reference 1) next to a block in
    motion (reference 0, velocity (3,0)), before the pre-step pass. *)
Definition resting_scene : State :=
  MkState (MkComposite [0; 1]%nat [])
    (heap_of
       [ fresh_body "Block" false 2 0 [0]%nat 0;
         MkBody "Projectile" false true 1 0 1 (Some 2%nat) Undefined [1]%nat 1 ])
    (vecs_of [MkVector 3 0; MkVector 0 0; MkVector 4 4]).

(** ** Further vocabulary for the handlers *)

(** Both bodies of the pair have had [velocityPrev] assigned, so neither
    [Vector.mult] of lines 70-71 reads a property of [undefined]. *)
Definition pair_ready (st : State) (p : Pair) : Prop :=
  velocityPrev (heap st (bodyA p)) <> None /\
  velocityPrev (heap st (bodyB p)) <> None.

(** The field holds a number proper, neither [undefined] nor [NaN]. *)
Definition is_number (v : JsNumber) : Prop := exists z, v = Number z.

(** The handler called [n] times in a row with the same pair list, as when
    the same contact forms again in later steps. *)
Fixpoint collisions (n : nat) (pairs : list Pair) (st : State) : Completion :=
  match n with
  | O => Normal st
  | S k =>
      match collisionStart pairs st with
      | Normal st' => collisions k pairs st'
      | TypeError st' => TypeError st'
      end
  end.

(** A part the pre-step pass reaches and does not remove: a part of a body of
    the world that is not a sleeping projectile. *)
Definition visited_awake (st : State) (r : BodyRef) : Prop :=
  asleep_projectile st r = false /\
  exists b, In b (Composite.allBodies (world st)) /\ In r (parts (heap st b)).

(** A plain block (reference 0, mass 2, velocity (3,0)) whose
    [shockAbsorbed] is exactly 500, and the ground. *)
Definition threshold_scene : State :=
  MkState (MkComposite [0; 1]%nat [])
    (heap_of
       [ set_shockAbsorbed (Number 500) (snapshot_body "Block" false 2 0 [0]%nat 0);
         snapshot_body "Ground" true 5 1 [1]%nat 1 ])
    (vecs_of [MkVector 3 0; MkVector 7 7]).

(** A plain block (reference 0) hit by a heavy projectile (reference 1, mass
    100, velocity (3,0)): the shock is 300. *)
Definition heavy_scene : State :=
  MkState (MkComposite [0; 1]%nat [])
    (heap_of
       [ snapshot_body "Block" false 2 0 [0]%nat 0;
         snapshot_body "Projectile" false 100 1 [1]%nat 1 ])
    (vecs_of [MkVector 0 0; MkVector 3 0]).

(** The bodies of [plain_scene] and a third body (reference 2) added to the
    world after the pre-step pass: it has no [velocityPrev] yet. *)
Definition late_scene : State :=
  MkState (MkComposite [0; 1; 2]%nat [])
    (heap_of
       [ snapshot_body "Block" false 2 0 [0]%nat 0;
         snapshot_body "Block" false 1 1 [1]%nat 1;
         fresh_body "Projectile" false 1 2 [2]%nat 2 ])
    (vecs_of [MkVector 3 0; MkVector 0 0; MkVector 0 0]).

(** A body of the pair that is its own parent (a plain, one-part body),
    the other body of the pair being another object that is not one of its
    parts. *)
Definition own_parent_in_pair (st : State) (p : Pair) (b : BodyRef) : Prop :=
  (b = bodyA p \/ b = bodyB p) /\
  bodyA p <> bodyB p /\
  parent (heap st b) = b /\
  (parent (heap st (bodyA p)) = b -> bodyA p = b) /\
  (parent (heap st (bodyB p)) = b -> bodyB p = b).

(** What a body must satisfy for the post-step pass to have nothing to do
    with it: it is not a block over the threshold, and if it is compound its
    parts already have its angle. *)
Definition settled (st : State) (x : BodyRef) : Prop :=
  String.eqb (label (heap st x)) "Block"
  && js_gt (shockAbsorbed (heap st x)) 500 = false /\
  ((1 < List.length (parts (heap st x)))%nat ->
   forall q, In q (parts (heap st x)) -> angle (heap st q) = angle (heap st x)).

(** The scalar of lines 70-71: [body.isStatic ? 0 : body.mass]. *)
Definition effective_mass (st : State) (r : BodyRef) : Q :=
  if isStatic (heap st r) then 0%Q else mass (heap st r).

(** Two bodies just added to the world, before any pre-step pass: a block
    (reference 0, mass 2, velocity (3,0)) and a projectile in flight
    (reference 1, mass 1, velocity (0,4)). *)
Definition fresh_scene : State :=
  MkState (MkComposite [0; 1]%nat [])
    (heap_of
       [ fresh_body "Block" false 2 0 [0]%nat 0;
         fresh_body "Projectile" false 1 1 [1]%nat 1 ])
    (vecs_of [MkVector 3 0; MkVector 0 4]).

(** ** The static layout constants and the canvas (game.js 11-19, 85,
    100-108) *)

Definition WIDTH_RATIO : Q := 2.

Definition HEIGHT_RATIO : Q := 1.

(** The arguments of a [Matter.Bodies.rectangle(x, y, width, height)] call:
    the centre and the extent of the rectangle. *)
Record Rectangle : Type := MkRectangle {
  centre_x : Q;
  centre_y : Q;
  width : Q;
  height : Q
}.

Section Layout.

(** [GameObjects.BLOCK_SIZE]: the class that declares it is not part of the
    sources, so the constant is a parameter. *)
Variable BLOCK_SIZE : Q.

Definition RENDER_SCALE : Q := (30 * BLOCK_SIZE)%Q.

Definition WORLD_SCALE : Q := (30 * BLOCK_SIZE)%Q.

Definition FLOOR_HEIGHT : Q := (HEIGHT_RATIO * WORLD_SCALE - 2 * BLOCK_SIZE)%Q.

(** The floor of line 85. *)
Definition floor : Rectangle :=
  MkRectangle (WIDTH_RATIO * WORLD_SCALE / 2)%Q (FLOOR_HEIGHT + 2 * BLOCK_SIZE)%Q
              (WIDTH_RATIO * WORLD_SCALE)%Q (4 * BLOCK_SIZE)%Q.

(** The anchor handed to [GameObjects.slingShot] on line 33. *)
Definition slingShot_anchor : Q * Q :=
  ((WIDTH_RATIO * WORLD_SCALE / 8)%Q, (HEIGHT_RATIO * 2 * WORLD_SCALE / 3)%Q).

End Layout.

Definition top_edge (r : Rectangle) : Q := (centre_y r - height r / 2)%Q.

Definition left_edge (r : Rectangle) : Q := (centre_x r - width r / 2)%Q.

Definition right_edge (r : Rectangle) : Q := (centre_x r + width r / 2)%Q.

(** [a / b > c] on JavaScript numbers, [b] being a difference that is [+0]
    when it vanishes: a division by it is [Infinity], [-Infinity] or [NaN],
    and only [Infinity] exceeds [c]. *)
Definition js_div_gt (a b c : Q) : bool :=
  if Qeq_bool b 0 then negb (Qle_bool a 0) else negb (Qle_bool (a / b)%Q c).

(** Lines 101-107 of [#createRenderer]: the width and height of the canvas
    from [document.body.clientWidth] and [window.innerHeight]. *)
Definition createRenderer_size (clientWidth innerHeight : Q) : Q * Q :=
  let pageWidth := clientWidth in
  let pageHeight := (innerHeight - 16)%Q in
  if js_div_gt pageWidth pageHeight (WIDTH_RATIO / HEIGHT_RATIO)%Q
  then ((WIDTH_RATIO * pageHeight / HEIGHT_RATIO)%Q, pageHeight)
  else (pageWidth, (HEIGHT_RATIO * pageWidth / WIDTH_RATIO)%Q).

(** The objects a pair writes to: its two bodies and their parents. *)
Definition footprint (st : State) (p : Pair) : list BodyRef :=
  [ bodyA p; parent (heap st (bodyA p)); bodyB p; parent (heap st (bodyB p)) ].

(** Two states whose heaps hold the same objects at the references of [S]. *)
Definition agree_on (S : BodyRef -> Prop) (st st' : State) : Prop :=
  forall r, S r -> heap st r = heap st' r.

(** Four plain bodies (references 0 to 3), after a pre-step pass. *)
Definition crowd_scene : State :=
  MkState (MkComposite [0; 1; 2; 3]%nat [])
    (heap_of
       [ snapshot_body "Block" false 2 0 [0]%nat 0;
         snapshot_body "Block" false 1 1 [1]%nat 1;
         snapshot_body "Block" false 3 2 [2]%nat 2;
         snapshot_body "Projectile" false 1 3 [3]%nat 3 ])
    (vecs_of [MkVector 3 0; MkVector 0 0; MkVector 0 0; MkVector 0 9]).

(** What a part must satisfy for the pre-step pass to have nothing to do
    with it: a sleeping projectile is no body of the world any more, any
    other part already refers to its velocity vector through
    [velocityPrev]. *)
Definition calm (st : State) (x : BodyRef) : Prop :=
  (asleep_projectile st x = true -> occurrences x (world st) = 0%nat) /\
  (asleep_projectile st x = false ->
   velocityPrev (heap st x) = Some (velocity (heap st x))).

(** * Properties *)

(** ** The heap *)

Lemma upd_same (h : Heap) (r : BodyRef) (b : Body) : upd h r b r = b.
Proof. unfold upd. now rewrite Nat.eqb_refl. Qed.

Lemma upd_other (h : Heap) (r r' : BodyRef) (b : Body) :
  r' <> r -> upd h r b r' = h r'.
Proof.
  intros Hne. unfold upd.
  destruct (Nat.eqb_spec r' r) as [E | _]; [contradiction | reflexivity].
Qed.

Lemma same_but_shock_refl (b : Body) : same_but_shock b b.
Proof. repeat split. Qed.

Lemma same_but_shock_trans (b1 b2 b3 : Body) :
  same_but_shock b1 b2 -> same_but_shock b2 b3 -> same_but_shock b1 b3.
Proof.
  unfold same_but_shock. intros H12 H23.
  repeat match goal with H : _ /\ _ |- _ => destruct H end.
  repeat split; congruence.
Qed.

Lemma assign_shockAbsorbed_same_but_shock r s st r' :
  same_but_shock (heap st r') (heap (assign_shockAbsorbed r s st) r').
Proof.
  unfold assign_shockAbsorbed, with_heap, upd. simpl.
  destruct (Nat.eqb_spec r' r) as [-> | _]; repeat split.
Qed.

Lemma assign_shockAbsorbed_at r s st :
  shockAbsorbed (heap (assign_shockAbsorbed r s st) r) = s.
Proof. unfold assign_shockAbsorbed. simpl. now rewrite upd_same. Qed.

Lemma assign_shockAbsorbed_other r s st r' :
  r' <> r -> heap (assign_shockAbsorbed r s st) r' = heap st r'.
Proof. intros Hne. unfold assign_shockAbsorbed. simpl. now apply upd_other. Qed.

Lemma assign_shockAbsorbed_parent r s st r' :
  parent (heap (assign_shockAbsorbed r s st) r') = parent (heap st r').
Proof. apply (assign_shockAbsorbed_same_but_shock r s st r'). Qed.

Lemma js_add_or_zero (v : JsNumber) (s : Z) :
  js_add (or_zero v) (Number s) = Number (total_of v + s).
Proof. now destruct v. Qed.

(** ** One body of a pair: lines 73-76 and 78-81 *)

(** The part is not its own parent: the part receives the shock, the parent
    receives the part's new total. *)
Lemma absorb_part b s st :
  parent (heap st b) <> b ->
  shockAbsorbed (heap (absorb b s st) b)
    = Number (total_of (shockAbsorbed (heap st b)) + s) /\
  shockAbsorbed (heap (absorb b s st) (parent (heap st b)))
    = Number (total_of (shockAbsorbed (heap st (parent (heap st b))))
              + (total_of (shockAbsorbed (heap st b)) + s)).
Proof.
  intros Hne. unfold absorb. cbv zeta.
  rewrite !assign_shockAbsorbed_parent.
  set (p := parent (heap st b)) in *.
  assert (Hne' : b <> p) by congruence.
  split.
  - rewrite assign_shockAbsorbed_other by exact Hne'.
    rewrite assign_shockAbsorbed_other by exact Hne'.
    rewrite !assign_shockAbsorbed_at. apply js_add_or_zero.
  - rewrite !assign_shockAbsorbed_at.
    rewrite (assign_shockAbsorbed_other p _ _ b) by exact Hne'.
    rewrite !assign_shockAbsorbed_at.
    rewrite !(assign_shockAbsorbed_other b _ _ p) by exact Hne.
    rewrite js_add_or_zero.
    now destruct (shockAbsorbed (heap st p)).
Qed.

(** The body is its own parent: the second addition reads the field the
    first one has just written. *)
Lemma absorb_self b s st :
  parent (heap st b) = b ->
  shockAbsorbed (heap (absorb b s st) b)
    = Number (2 * (total_of (shockAbsorbed (heap st b)) + s)).
Proof.
  intros Hp. unfold absorb. cbv zeta.
  rewrite !assign_shockAbsorbed_parent, Hp.
  rewrite !assign_shockAbsorbed_at, js_add_or_zero.
  cbn [js_add or_zero]. f_equal. lia.
Qed.

(** Whatever the aliasing, [absorb] leaves the world, the vectors and every
    field but [shockAbsorbed] alone, and writes to [b] and its parent only. *)
Lemma absorb_frame b s st :
  world (absorb b s st) = world st /\
  vecs (absorb b s st) = vecs st /\
  (forall r, same_but_shock (heap st r) (heap (absorb b s st) r)) /\
  (forall r, r <> b -> r <> parent (heap st b) ->
             heap (absorb b s st) r = heap st r).
Proof.
  unfold absorb. cbv zeta. rewrite !assign_shockAbsorbed_parent.
  set (p := parent (heap st b)).
  split; [reflexivity | split; [reflexivity | split]].
  - intros r.
    repeat (eapply same_but_shock_trans;
            [ | apply assign_shockAbsorbed_same_but_shock ]).
    apply same_but_shock_refl.
  - intros r Hb Hp.
    now rewrite !assign_shockAbsorbed_other.
Qed.

(** ** The momentum difference *)

Lemma magnitudeSquared_equiv (u v : Vector) :
  Vector.equiv u v -> (Vector.magnitudeSquared u == Vector.magnitudeSquared v)%Q.
Proof.
  intros [Hx Hy]. unfold Vector.magnitudeSquared. now rewrite Hx, Hy.
Qed.

Lemma floor_magnitude_equiv (u v : Vector) :
  Vector.equiv u v -> Vector.floor_magnitude u = Vector.floor_magnitude v.
Proof.
  intros H. unfold Vector.floor_magnitude.
  now rewrite (Qfloor_comp _ _ (magnitudeSquared_equiv u v H)).
Qed.

Lemma mult_equiv (u v : Vector) (s t : Q) :
  Vector.equiv u v -> (s == t)%Q ->
  Vector.equiv (Vector.mult u s) (Vector.mult v t).
Proof.
  intros [Hx Hy] Hs. split; simpl; now rewrite ?Hx, ?Hy, Hs.
Qed.

Lemma sub_equiv (u u' v v' : Vector) :
  Vector.equiv u u' -> Vector.equiv v v' ->
  Vector.equiv (Vector.sub u v) (Vector.sub u' v').
Proof.
  intros [Hx Hy] [Hx' Hy']. split; simpl; now rewrite ?Hx, ?Hy, ?Hx', ?Hy'.
Qed.

Lemma mult_zero (v : Vector) : Vector.equiv (Vector.mult v 0) Vector.zero.
Proof. split; simpl; ring. Qed.

(** [floor_magnitude v] is the floor of the square root of [|v|^2]: it is the
    one natural number [k] with [k^2 <= |v|^2 < (k+1)^2]. *)
Lemma floor_magnitude_spec (v : Vector) :
  let k := Vector.floor_magnitude v in
  0 <= k /\
  (inject_Z (k * k) <= Vector.magnitudeSquared v)%Q /\
  (Vector.magnitudeSquared v < inject_Z ((k + 1) * (k + 1)))%Q.
Proof.
  cbv zeta. unfold Vector.floor_magnitude.
  set (q := Vector.magnitudeSquared v).
  assert (Hq : (0 <= q)%Q).
  { unfold q, Vector.magnitudeSquared.
    assert (Hsq : forall a : Q, (0 <= a * a)%Q).
    { intros a. destruct (Qlt_le_dec a 0) as [Hn | Hp].
      - setoid_replace (a * a)%Q with ((- a) * (- a))%Q by ring.
        apply Qmult_le_0_compat; apply (Qopp_le_compat a 0); now apply Qlt_le_weak.
      - now apply Qmult_le_0_compat. }
    generalize (Hsq (x v)) (Hsq (y v)). intros H1 H2.
    replace 0%Q with (0 + 0)%Q by reflexivity. now apply Qplus_le_compat. }
  assert (Hf : 0 <= Qfloor q).
  { change 0 with (Qfloor 0). now apply Qfloor_resp_le. }
  destruct (Z.sqrt_spec (Qfloor q) Hf) as [Hlo Hhi].
  split; [apply Z.sqrt_nonneg | split].
  - apply Qle_trans with (inject_Z (Qfloor q)); [ | apply Qfloor_le ].
    rewrite <- Zle_Qle. exact Hlo.
  - apply Qlt_le_trans with (inject_Z (Qfloor q + 1)); [ apply Qlt_floor | ].
    rewrite <- Zle_Qle. unfold Z.succ in Hhi. lia.
Qed.

(** The momentum of a body reads [velocityPrev], [isStatic], [mass] and the
    vector heap only. *)
Lemma momentum_frame st st' r :
  vecs st' = vecs st -> same_but_shock (heap st r) (heap st' r) ->
  momentum st' r = momentum st r.
Proof.
  intros Hv (_ & Hs & _ & Hm & _ & _ & Hp & _).
  unfold momentum. now rewrite Hv, Hs, Hm, Hp.
Qed.

Lemma shock_frame st st' p :
  vecs st' = vecs st -> (forall r, same_but_shock (heap st r) (heap st' r)) ->
  shock st' p = shock st p.
Proof.
  intros Hv Hh. unfold shock.
  now rewrite !(momentum_frame st st') by auto.
Qed.

Lemma momentum_static st r v :
  isStatic (heap st r) = true -> velocityPrev (heap st r) = Some v ->
  momentum st r = Some (Vector.mult (vecs st v) 0).
Proof. intros Hs Hv. unfold momentum. now rewrite Hv, Hs. Qed.

Lemma momentum_dynamic st r v :
  isStatic (heap st r) = false -> velocityPrev (heap st r) = Some v ->
  momentum st r = Some (Vector.mult (vecs st v) (mass (heap st r))).
Proof. intros Hs Hv. unfold momentum. now rewrite Hv, Hs. Qed.

Lemma floor_magnitude_sub_zero_r (m z : Vector) :
  Vector.equiv z Vector.zero ->
  Vector.floor_magnitude (Vector.sub m z) = Vector.floor_magnitude m.
Proof.
  intros [Hx Hy]. apply floor_magnitude_equiv.
  split; simpl in *; rewrite ?Hx, ?Hy; ring.
Qed.

Lemma floor_magnitude_sub_zero_l (m z : Vector) :
  Vector.equiv z Vector.zero ->
  Vector.floor_magnitude (Vector.sub z m) = Vector.floor_magnitude m.
Proof.
  intros [Hx Hy]. unfold Vector.floor_magnitude. apply f_equal, Qfloor_comp.
  unfold Vector.magnitudeSquared. simpl in *. rewrite Hx, Hy. ring.
Qed.

(** ** The hook on a list of pairs *)

Lemma assign_shockAbsorbed_heap r s st r' :
  heap (assign_shockAbsorbed r s st) r'
  = if Nat.eqb r' r then set_shockAbsorbed s (heap st r) else heap st r'.
Proof. reflexivity. Qed.

(** The four statements of the source do what the specification words as
    two additions, whatever the aliasing between a body and its parent. *)
Lemma absorb_accumulate b s st r :
  heap (absorb b s st) r = heap (accumulate b s st) r.
Proof.
  unfold absorb, accumulate, add_shock. cbv zeta.
  rewrite !assign_shockAbsorbed_parent.
  generalize (parent (heap st b)). intros p.
  rewrite !assign_shockAbsorbed_heap, !Nat.eqb_refl.
  destruct (Nat.eqb_spec p b) as [-> | Hpb].
  - rewrite ?Nat.eqb_refl.
    destruct (Nat.eqb_spec r b) as [-> | _]; [ | reflexivity ].
    destruct (heap st b) as [? ? ? ? ? ? ? sa ? ?]. now destruct sa.
  - destruct (Nat.eqb_spec b p) as [E | _]; [ congruence | ].
    destruct (Nat.eqb_spec r p) as [-> | _].
    + destruct (heap st p) as [? ? ? ? ? ? ? sp ? ?].
      destruct (heap st b) as [? ? ? ? ? ? ? sb ? ?].
      now destruct sp, sb.
    + destruct (Nat.eqb_spec r b) as [-> | _]; [ | reflexivity ].
      destruct (heap st b) as [? ? ? ? ? ? ? sa ? ?]. now destruct sa.
Qed.

Lemma collisionStart_pair_normal st p s :
  shock st p = Some s ->
  collisionStart_pair st p = Normal (absorb (bodyB p) s (absorb (bodyA p) s st)).
Proof. intros Hs. unfold collisionStart_pair. now rewrite Hs. Qed.

Lemma collisionStart_pair_frame st p :
  let st' := state_of (collisionStart_pair st p) in
  world st' = world st /\ vecs st' = vecs st /\
  (forall r, same_but_shock (heap st r) (heap st' r)) /\
  (forall r, r <> bodyA p -> r <> parent (heap st (bodyA p)) ->
             r <> bodyB p -> r <> parent (heap st (bodyB p)) ->
             heap st' r = heap st r).
Proof.
  cbv zeta. unfold collisionStart_pair.
  destruct (shock st p) as [s | ]; cbn [state_of].
  2: { split; [ | split; [ | split ] ]; intros; try reflexivity.
       apply same_but_shock_refl. }
  destruct (absorb_frame (bodyA p) s st) as (Hw1 & Hv1 & Hs1 & Ho1).
  destruct (absorb_frame (bodyB p) s (absorb (bodyA p) s st))
    as (Hw2 & Hv2 & Hs2 & Ho2).
  split; [congruence | split; [congruence | split]].
  - intros r. eapply same_but_shock_trans; [apply Hs1 | apply Hs2].
  - intros r Ha Hpa Hb Hpb.
    rewrite Ho2, Ho1; auto.
    destruct (Hs1 (bodyB p)) as (_ & _ & _ & _ & _ & _ & _ & _ & Hp).
    now rewrite Hp.
Qed.

Lemma collisionStart_single st p s :
  shock st p = Some s ->
  collisionStart [p] st = Normal (absorb (bodyB p) s (absorb (bodyA p) s st)).
Proof. intros Hs. cbn [collisionStart]. now rewrite (collisionStart_pair_normal st p s Hs). Qed.

Lemma separate_frame st st' p :
  (forall r, same_but_shock (heap st r) (heap st' r)) ->
  separate st p -> separate st' p.
Proof.
  intros Hh. unfold separate.
  destruct (Hh (bodyA p)) as (_ & _ & _ & _ & _ & _ & _ & _ & ->).
  destruct (Hh (bodyB p)) as (_ & _ & _ & _ & _ & _ & _ & _ & ->).
  trivial.
Qed.

(** One pair whose bodies and parents are four different objects. *)
Lemma pair_separate_values st p s :
  separate st p ->
  let st' := absorb (bodyB p) s (absorb (bodyA p) s st) in
  let a := bodyA p in
  let b := bodyB p in
  let pa := parent (heap st a) in
  let pb := parent (heap st b) in
  shockAbsorbed (heap st' a) = Number (total_of (shockAbsorbed (heap st a)) + s) /\
  shockAbsorbed (heap st' pa)
    = Number (total_of (shockAbsorbed (heap st pa))
              + (total_of (shockAbsorbed (heap st a)) + s)) /\
  shockAbsorbed (heap st' b) = Number (total_of (shockAbsorbed (heap st b)) + s) /\
  shockAbsorbed (heap st' pb)
    = Number (total_of (shockAbsorbed (heap st pb))
              + (total_of (shockAbsorbed (heap st b)) + s)).
Proof.
  intros (Hab & Haa & Hpab & Hpba & Hbb & Hpp). cbv zeta.
  set (a := bodyA p) in *. set (b := bodyB p) in *.
  set (pa := parent (heap st a)) in *. set (pb := parent (heap st b)) in *.
  set (st1 := absorb a s st).
  destruct (absorb_part a s st Haa) as [Ha Hpa]. fold pa st1 in Ha, Hpa.
  destruct (absorb_frame a s st) as (_ & _ & Hs1 & Ho1). fold pa st1 in Hs1, Ho1.
  assert (Hpb1 : parent (heap st1 b) = pb) by apply (Hs1 b).
  assert (Hb1 : heap st1 b = heap st b) by (apply Ho1; congruence).
  assert (Hpb1' : heap st1 pb = heap st pb) by (apply Ho1; congruence).
  destruct (absorb_part b s st1) as [Hb Hpb]; [congruence | ].
  destruct (absorb_frame b s st1) as (_ & _ & _ & Ho2).
  rewrite Hpb1 in Hpb, Ho2. rewrite Hb1 in Hb, Hpb. rewrite Hpb1' in Hpb.
  repeat split.
  - rewrite Ho2 by congruence. exact Ha.
  - rewrite Ho2 by congruence. exact Hpa.
  - exact Hb.
  - exact Hpb.
Qed.

(** What the hook leaves alone, for any pair list. *)
Lemma collisionStart_removes_nothing_aux (pairs : list Pair) (st : State) :
  vecs (state_of (collisionStart pairs st)) = vecs st /\
  (forall r, same_but_shock (heap st r) (heap (state_of (collisionStart pairs st)) r)).
Proof.
  revert st. induction pairs as [ | p rest IH]; intros st.
  - cbn. split; [reflexivity | intros r; apply same_but_shock_refl].
  - cbn [collisionStart].
    destruct (collisionStart_pair_frame st p) as (_ & Hv & Hs & _).
    destruct (collisionStart_pair st p) as [st1 | st1]; cbn [state_of] in *.
    + destruct (IH st1) as (Hv' & Hs').
      split; [congruence | ].
      intros r. eapply same_but_shock_trans; [apply Hs | apply Hs'].
    + split; assumption.
Qed.

(** ** Claims about collisionStart *)

(** C9: the collision-start hook removes nothing.  For every state and pair
    list, whether the handler ends normally or not, the world (hence the
    list of its bodies) and the vectors are what they were, every body
    keeps every field but [shockAbsorbed], and a body that is neither a
    body of a pair nor the parent of one is not written at all. *)
Theorem collisionStart_removes_nothing (pairs : list Pair) (st : State) :
  let st' := state_of (collisionStart pairs st) in
  world st' = world st /\
  Composite.allBodies (world st') = Composite.allBodies (world st) /\
  vecs st' = vecs st /\
  (forall r, same_but_shock (heap st r) (heap st' r)) /\
  (forall r,
      (forall p, In p pairs ->
                 r <> bodyA p /\ r <> parent (heap st (bodyA p)) /\
                 r <> bodyB p /\ r <> parent (heap st (bodyB p))) ->
      heap st' r = heap st r).
Proof.
  cbv zeta. revert st.
  induction pairs as [ | p rest IH]; intros st.
  - cbn. repeat split; auto.
  - cbn [collisionStart].
    destruct (collisionStart_pair_frame st p) as (Hw & Hv & Hs & Ho).
    destruct (collisionStart_pair st p) as [st1 | st1] eqn:E; cbn [state_of] in *.
    + destruct (IH st1) as (Hw' & Hb' & Hv' & Hs' & Ho').
      split; [congruence | split; [congruence | split; [congruence | split]]].
      * intros r. eapply same_but_shock_trans; [apply Hs | apply Hs'].
      * intros r Hr.
        rewrite Ho'.
        -- destruct (Hr p (or_introl eq_refl)) as (? & ? & ? & ?). now apply Ho.
        -- intros q Hq. destruct (Hr q (or_intror Hq)) as (? & ? & ? & ?).
           destruct (Hs (bodyA q)) as (_ & _ & _ & _ & _ & _ & _ & _ & ->).
           destruct (Hs (bodyB q)) as (_ & _ & _ & _ & _ & _ & _ & _ & ->).
           auto.
    + split; [congruence | split; [congruence | split; [congruence | split]]].
      * exact Hs.
      * intros r Hr.
        destruct (Hr p (or_introl eq_refl)) as (? & ? & ? & ?). now apply Ho.
Qed.

(** C8: a static body's momentum is the zero vector whatever vector its
    [velocityPrev] holds, and for a pair with exactly one static body the
    floored shock is the floored magnitude of the dynamic body's
    [velocityPrev * mass]. *)
Theorem static_body_has_no_momentum (st : State) (p : Pair) (va vb : VecRef) :
  velocityPrev (heap st (bodyA p)) = Some va ->
  velocityPrev (heap st (bodyB p)) = Some vb ->
  (isStatic (heap st (bodyA p)) = true ->
   exists m, momentum st (bodyA p) = Some m /\ Vector.equiv m Vector.zero) /\
  (isStatic (heap st (bodyB p)) = true ->
   exists m, momentum st (bodyB p) = Some m /\ Vector.equiv m Vector.zero) /\
  (isStatic (heap st (bodyA p)) = true -> isStatic (heap st (bodyB p)) = false ->
   shock st p
   = Some (Vector.floor_magnitude
             (Vector.mult (vecs st vb) (mass (heap st (bodyB p)))))) /\
  (isStatic (heap st (bodyA p)) = false -> isStatic (heap st (bodyB p)) = true ->
   shock st p
   = Some (Vector.floor_magnitude
             (Vector.mult (vecs st va) (mass (heap st (bodyA p)))))).
Proof.
  intros Ha Hb. split; [ | split; [ | split ] ].
  - intros Hs. exists (Vector.mult (vecs st va) 0).
    split; [exact (momentum_static st _ va Hs Ha) | apply mult_zero].
  - intros Hs. exists (Vector.mult (vecs st vb) 0).
    split; [exact (momentum_static st _ vb Hs Hb) | apply mult_zero].
  - intros HsA HsB. unfold shock.
    rewrite (momentum_static st _ va HsA Ha), (momentum_dynamic st _ vb HsB Hb).
    f_equal. apply floor_magnitude_sub_zero_l, mult_zero.
  - intros HsA HsB. unfold shock.
    rewrite (momentum_dynamic st _ va HsA Ha), (momentum_static st _ vb HsB Hb).
    f_equal. apply floor_magnitude_sub_zero_r, mult_zero.
Qed.

(** C3: a body that is its own parent, in a pair with another body that is
    not one of its parts, goes from total [t] to [2 * (t + s)] in one
    execution of the hook, [s] being the floored shock of the pair. *)
Theorem self_parent_doubles (st : State) (p : Pair) (x : BodyRef) (s : Z) :
  shock st p = Some s ->
  x = bodyA p \/ x = bodyB p ->
  bodyA p <> bodyB p ->
  parent (heap st x) = x ->
  (parent (heap st (bodyA p)) = x -> bodyA p = x) ->
  (parent (heap st (bodyB p)) = x -> bodyB p = x) ->
  exists st',
    collisionStart [p] st = Normal st' /\
    shockAbsorbed (heap st' x)
    = Number (2 * (total_of (shockAbsorbed (heap st x)) + s)).
Proof.
  intros Hs Hx Hab Hself HpA HpB.
  exists (absorb (bodyB p) s (absorb (bodyA p) s st)).
  split; [exact (collisionStart_single st p s Hs) | ].
  set (st1 := absorb (bodyA p) s st).
  destruct (absorb_frame (bodyA p) s st) as (_ & _ & Hs1 & Ho1). fold st1 in Hs1, Ho1.
  destruct (absorb_frame (bodyB p) s st1) as (_ & _ & _ & Ho2).
  assert (HpB1 : parent (heap st1 (bodyB p)) = parent (heap st (bodyB p)))
    by apply (Hs1 (bodyB p)).
  destruct Hx as [-> | ->].
  - rewrite Ho2.
    + now apply absorb_self.
    + exact Hab.
    + rewrite HpB1. intros E. symmetry in E. apply HpB in E. congruence.
  - assert (Hb1 : heap st1 (bodyB p) = heap st (bodyB p)).
    { apply Ho1; [congruence | ].
      intros E. symmetry in E. apply HpA in E. congruence. }
    rewrite <- Hb1. apply absorb_self. now rewrite Hb1.
Qed.

Lemma self_parent_doubles_witness :
  exists st',
    collisionStart [MkPair 0 1] plain_scene = Normal st' /\
    shockAbsorbed (heap st' 1%nat) = Number (2 * (0 + 6)).
Proof.
  apply (self_parent_doubles plain_scene (MkPair 0 1) 1%nat 6).
  - reflexivity.
  - right. reflexivity.
  - discriminate.
  - reflexivity.
  - discriminate.
  - reflexivity.
Defined.

Lemma static_body_has_no_momentum_witness :
  shock ground_scene (MkPair 0 1)
  = Some (Vector.floor_magnitude (Vector.mult (MkVector 3 0) 2)) /\
  shock ground_scene (MkPair 1 0)
  = Some (Vector.floor_magnitude (Vector.mult (MkVector 3 0) 2)).
Proof.
  split.
  - apply (static_body_has_no_momentum ground_scene (MkPair 0 1) 0 1);
      reflexivity.
  - apply (static_body_has_no_momentum ground_scene (MkPair 1 0) 1 0);
      reflexivity.
Defined.

(** C1: for every pair of the list, each of the two bodies first receives
    the floored shock on its own [shockAbsorbed], then its just-incremented
    total is added to its parent's [shockAbsorbed] (whatever the aliasing:
    the handler computes [accumulate] for [bodyA], then for [bodyB], and
    goes on with the rest of the list).  When
    the bodies and their parents are four different objects, one execution
    takes a part from [t] to [t + s] and its parent from [u] to
    [u + (t + s)]; a second execution with the same pair takes the part to
    [t + s + s] and the parent to [u + (t + s) + (t + s + s)]: with [s = 6]
    from 0, the part reaches 12 and the parent 6 + 12 = 18. *)
Theorem collision_adds_part_total_to_parent (st : State) (p : Pair) (s : Z) :
  shock st p = Some s ->
  let a := bodyA p in
  let b := bodyB p in
  let pa := parent (heap st a) in
  let pb := parent (heap st b) in
  let ta := total_of (shockAbsorbed (heap st a)) in
  let tb := total_of (shockAbsorbed (heap st b)) in
  let ua := total_of (shockAbsorbed (heap st pa)) in
  let ub := total_of (shockAbsorbed (heap st pb)) in
  (exists stA st1,
      (forall rest, collisionStart (p :: rest) st = collisionStart rest st1) /\
      (forall r, heap stA r = heap (accumulate a s st) r) /\
      (forall r, heap st1 r = heap (accumulate b s stA) r)) /\
  (separate st p ->
   exists st1 st2,
     collisionStart [p] st = Normal st1 /\
     collisionStart [p] st1 = Normal st2 /\
     shockAbsorbed (heap st1 a) = Number (ta + s) /\
     shockAbsorbed (heap st1 pa) = Number (ua + (ta + s)) /\
     shockAbsorbed (heap st1 b) = Number (tb + s) /\
     shockAbsorbed (heap st1 pb) = Number (ub + (tb + s)) /\
     shockAbsorbed (heap st2 a) = Number (ta + s + s) /\
     shockAbsorbed (heap st2 pa) = Number (ua + (ta + s) + (ta + s + s)) /\
     shockAbsorbed (heap st2 b) = Number (tb + s + s) /\
     shockAbsorbed (heap st2 pb) = Number (ub + (tb + s) + (tb + s + s))).
Proof.
  intros Hs. cbv zeta. split.
  - exists (absorb (bodyA p) s st), (absorb (bodyB p) s (absorb (bodyA p) s st)).
    split; [ | split].
    + intros rest. cbn [collisionStart].
      now rewrite (collisionStart_pair_normal st p s Hs).
    + intros r. apply absorb_accumulate.
    + intros r. apply absorb_accumulate.
  - intros Hsep.
    set (st1 := absorb (bodyB p) s (absorb (bodyA p) s st)).
    assert (Hrun1 : collisionStart [p] st = Normal st1)
      by exact (collisionStart_single st p s Hs).
    destruct (collisionStart_removes_nothing_aux [p] st) as (Hv & Hh).
    rewrite Hrun1 in Hv, Hh. cbn [state_of] in Hv, Hh.
    assert (Hs1 : shock st1 p = Some s) by now rewrite (shock_frame st st1 p Hv Hh).
    exists st1, (absorb (bodyB p) s (absorb (bodyA p) s st1)).
    split; [exact Hrun1 | ].
    split; [exact (collisionStart_single st1 p s Hs1) | ].
    destruct (pair_separate_values st p s Hsep) as (H1 & H2 & H3 & H4).
    fold st1 in H1, H2, H3, H4.
    destruct (pair_separate_values st1 p s (separate_frame st st1 p Hh Hsep))
      as (K1 & K2 & K3 & K4).
    destruct (Hh (bodyA p)) as (_ & _ & _ & _ & _ & _ & _ & _ & HpA).
    destruct (Hh (bodyB p)) as (_ & _ & _ & _ & _ & _ & _ & _ & HpB).
    rewrite HpA in K2. rewrite HpB in K4.
    rewrite H1 in K1, K2. rewrite H2 in K2. rewrite H3 in K3, K4. rewrite H4 in K4.
    cbn [total_of] in K1, K2, K3, K4.
    repeat split; assumption.
Qed.

Lemma collision_adds_part_total_to_parent_witness :
  exists st1 st2,
    collisionStart [MkPair 1 3] compound_scene = Normal st1 /\
    collisionStart [MkPair 1 3] st1 = Normal st2 /\
    shockAbsorbed (heap st1 1%nat) = Number 6 /\
    shockAbsorbed (heap st1 0%nat) = Number 6 /\
    shockAbsorbed (heap st2 1%nat) = Number 12 /\
    shockAbsorbed (heap st2 0%nat) = Number 18.
Proof.
  destruct (collision_adds_part_total_to_parent compound_scene (MkPair 1 3) 6
              eq_refl) as [_ H].
  destruct H as (st1 & st2 & R1 & R2 & A1 & P1 & _ & _ & A2 & P2 & _ & _).
  - repeat split; discriminate.
  - exists st1, st2. repeat split; assumption.
Defined.

Lemma untouched_total (v : JsNumber) : untouched v -> total_of v = 0.
Proof. now intros [-> | ->]. Qed.

(** The shock of the pair of C2: momenta (6,0) and (0,0). *)
Lemma shock_of_first_collision (st : State) (p : Pair) (va vb : VecRef) :
  isStatic (heap st (bodyA p)) = false ->
  isStatic (heap st (bodyB p)) = false ->
  (mass (heap st (bodyA p)) == 2)%Q ->
  (mass (heap st (bodyB p)) == 1)%Q ->
  velocityPrev (heap st (bodyA p)) = Some va ->
  velocityPrev (heap st (bodyB p)) = Some vb ->
  Vector.equiv (vecs st va) (MkVector 3 0) ->
  Vector.equiv (vecs st vb) (MkVector 0 0) ->
  shock st p = Some 6.
Proof.
  intros HsA HsB HmA HmB HvA HvB HeA HeB. unfold shock.
  rewrite (momentum_dynamic st _ va HsA HvA), (momentum_dynamic st _ vb HsB HvB).
  f_equal.
  rewrite (floor_magnitude_equiv _
             (Vector.sub (Vector.mult (MkVector 3 0) 2) (Vector.mult (MkVector 0 0) 1))).
  - reflexivity.
  - apply sub_equiv; apply mult_equiv; assumption.
Qed.

(** C2, as stated, fails for two plain bodies: each is its own parent, so
    the second addition doubles the field and both end at 12, not 6. *)
Lemma first_collision_plain_bodies_reach_12 :
  isStatic (heap plain_scene 0%nat) = false /\
  isStatic (heap plain_scene 1%nat) = false /\
  mass (heap plain_scene 0%nat) = 2%Q /\
  mass (heap plain_scene 1%nat) = 1%Q /\
  read_velocityPrev plain_scene 0 = Some (MkVector 3 0) /\
  read_velocityPrev plain_scene 1 = Some (MkVector 0 0) /\
  shockAbsorbed (heap plain_scene 0%nat) = Undefined /\
  shockAbsorbed (heap plain_scene 1%nat) = Undefined /\
  shock plain_scene (MkPair 0 1) = Some 6 /\
  exists st',
    collisionStart [MkPair 0 1] plain_scene = Normal st' /\
    shockAbsorbed (heap st' 0%nat) = Number 12 /\
    shockAbsorbed (heap st' 1%nat) = Number 12 /\
    shockAbsorbed (heap st' 0%nat) <> Number 6 /\
    shockAbsorbed (heap st' 1%nat) <> Number 6.
Proof.
  repeat (split; [reflexivity | ]).
  eexists. split; [reflexivity | ].
  repeat split; try reflexivity; discriminate.
Qed.

(** C2, amended: when A and B are parts of two different compound bodies
    (the bodies and their parents are four different objects) and the
    parents' [shockAbsorbed] is 0 or uninitialized as well, the first
    collision of A (mass 2, velocityPrev (3,0)) with B (mass 1, velocityPrev
    (0,0)) computes shock 6 and leaves the two parts and the two parents
    at 6. *)
Theorem first_collision_of_separate_parts (st : State) (p : Pair) (va vb : VecRef) :
  separate st p ->
  isStatic (heap st (bodyA p)) = false ->
  isStatic (heap st (bodyB p)) = false ->
  (mass (heap st (bodyA p)) == 2)%Q ->
  (mass (heap st (bodyB p)) == 1)%Q ->
  velocityPrev (heap st (bodyA p)) = Some va ->
  velocityPrev (heap st (bodyB p)) = Some vb ->
  Vector.equiv (vecs st va) (MkVector 3 0) ->
  Vector.equiv (vecs st vb) (MkVector 0 0) ->
  untouched (shockAbsorbed (heap st (bodyA p))) ->
  untouched (shockAbsorbed (heap st (bodyB p))) ->
  untouched (shockAbsorbed (heap st (parent (heap st (bodyA p))))) ->
  untouched (shockAbsorbed (heap st (parent (heap st (bodyB p))))) ->
  shock st p = Some 6 /\
  exists st',
    collisionStart [p] st = Normal st' /\
    shockAbsorbed (heap st' (bodyA p)) = Number 6 /\
    shockAbsorbed (heap st' (bodyB p)) = Number 6 /\
    shockAbsorbed (heap st' (parent (heap st (bodyA p)))) = Number 6 /\
    shockAbsorbed (heap st' (parent (heap st (bodyB p)))) = Number 6.
Proof.
  intros Hsep HsA HsB HmA HmB HvA HvB HeA HeB Ha Hb Hpa Hpb.
  assert (Hs : shock st p = Some 6)
    by exact (shock_of_first_collision st p va vb HsA HsB HmA HmB HvA HvB HeA HeB).
  split; [exact Hs | ].
  exists (absorb (bodyB p) 6 (absorb (bodyA p) 6 st)).
  split; [exact (collisionStart_single st p 6 Hs) | ].
  destruct (pair_separate_values st p 6 Hsep) as (H1 & H2 & H3 & H4).
  rewrite (untouched_total _ Ha) in H1, H2.
  rewrite (untouched_total _ Hb) in H3, H4.
  rewrite (untouched_total _ Hpa) in H2.
  rewrite (untouched_total _ Hpb) in H4.
  repeat split; assumption.
Qed.

Lemma first_collision_of_separate_parts_witness :
  shock compound_scene (MkPair 1 3) = Some 6 /\
  exists st',
    collisionStart [MkPair 1 3] compound_scene = Normal st' /\
    shockAbsorbed (heap st' 1%nat) = Number 6 /\
    shockAbsorbed (heap st' 3%nat) = Number 6 /\
    shockAbsorbed (heap st' 0%nat) = Number 6 /\
    shockAbsorbed (heap st' 2%nat) = Number 6.
Proof.
  apply (first_collision_of_separate_parts compound_scene (MkPair 1 3) 1 3).
  - repeat split; discriminate.
  - reflexivity.
  - reflexivity.
  - reflexivity.
  - reflexivity.
  - reflexivity.
  - reflexivity.
  - split; reflexivity.
  - split; reflexivity.
  - left; reflexivity.
  - left; reflexivity.
  - left; reflexivity.
  - left; reflexivity.
Defined.

(** ** Composites *)

Lemma count_remove_first_same (r : BodyRef) (l : list BodyRef) :
  count_occ Nat.eq_dec (Composite.remove_first r l) r
  = pred (count_occ Nat.eq_dec l r).
Proof.
  induction l as [ | b l IH]; [reflexivity | ].
  cbn [Composite.remove_first].
  destruct (Nat.eqb_spec b r) as [-> | Hne].
  - now rewrite count_occ_cons_eq.
  - rewrite !count_occ_cons_neq by exact Hne. exact IH.
Qed.

Lemma count_remove_first_other (x r : BodyRef) (l : list BodyRef) :
  x <> r ->
  count_occ Nat.eq_dec (Composite.remove_first x l) r = count_occ Nat.eq_dec l r.
Proof.
  intros Hne. induction l as [ | b l IH]; [reflexivity | ].
  cbn [Composite.remove_first].
  destruct (Nat.eqb_spec b x) as [-> | Hbx].
  - now rewrite count_occ_cons_neq.
  - destruct (Nat.eq_dec b r) as [-> | Hbr].
    + rewrite !count_occ_cons_eq by reflexivity. now rewrite IH.
    + now rewrite !count_occ_cons_neq.
Qed.

Lemma allBodies_removeBody (bodies : list BodyRef) (cs : list Composite) (b : BodyRef) :
  Composite.allBodies (Composite.removeBody (MkComposite bodies cs) b true)
  = Composite.remove_first b bodies
    ++ flat_map Composite.allBodies
         (map (fun c' => Composite.removeBody c' b true) cs).
Proof. reflexivity. Qed.

(** A deep removal of [r] takes out at least one occurrence of [r], when
    there is one. *)
Lemma occurrences_remove_same (r : BodyRef) (c : Composite) :
  (occurrences r (Composite.remove c r true) <= pred (occurrences r c))%nat.
Proof.
  unfold occurrences, Composite.remove.
  induction c as [bodies cs IH] using Composite_nested_ind.
  rewrite allBodies_removeBody. cbn [Composite.allBodies].
  rewrite !count_occ_app, count_remove_first_same.
  assert (Hcs :
    (count_occ Nat.eq_dec
       (flat_map Composite.allBodies
          (map (fun c' => Composite.removeBody c' r true) cs)) r
     <= pred (count_occ Nat.eq_dec (flat_map Composite.allBodies cs) r))%nat).
  { induction IH as [ | c cs Hc _ IHcs]; [apply Nat.le_refl | ].
    cbn [map flat_map]. rewrite !count_occ_app. lia. }
  lia.
Qed.

(** A deep removal of another body leaves the occurrences of [r] alone. *)
Lemma occurrences_remove_other (x r : BodyRef) (c : Composite) :
  x <> r -> occurrences r (Composite.remove c x true) = occurrences r c.
Proof.
  intros Hne. unfold occurrences, Composite.remove.
  induction c as [bodies cs IH] using Composite_nested_ind.
  rewrite allBodies_removeBody. cbn [Composite.allBodies].
  rewrite !count_occ_app, count_remove_first_other by exact Hne.
  f_equal.
  induction IH as [ | c cs Hc _ IHcs]; [reflexivity | ].
  cbn [map flat_map]. rewrite !count_occ_app. now rewrite Hc, IHcs.
Qed.

Lemma occurrences_In (r : BodyRef) (c : Composite) :
  In r (Composite.allBodies c) <-> (0 < occurrences r c)%nat.
Proof. unfold occurrences. apply count_occ_In. Qed.

Lemma occurrences_not_In (r : BodyRef) (c : Composite) :
  ~ In r (Composite.allBodies c) <-> occurrences r c = 0%nat.
Proof. unfold occurrences. apply count_occ_not_In. Qed.

(** Nothing enters a composite through a removal. *)
Lemma occurrences_remove_le (x r : BodyRef) (c : Composite) :
  (occurrences r (Composite.remove c x true) <= occurrences r c)%nat.
Proof.
  destruct (Nat.eq_dec x r) as [-> | Hne].
  - pose proof (occurrences_remove_same r c). lia.
  - now rewrite occurrences_remove_other.
Qed.

(** ** afterUpdate *)

Lemma same_but_angle_refl (b : Body) : same_but_angle b b.
Proof. repeat split. Qed.

Lemma same_but_angle_trans (b1 b2 b3 : Body) :
  same_but_angle b1 b2 -> same_but_angle b2 b3 -> same_but_angle b1 b3.
Proof.
  unfold same_but_angle. intros H12 H23.
  repeat match goal with H : _ /\ _ |- _ => destruct H end.
  repeat split; congruence.
Qed.

Lemma assign_angle_heap r a st r' :
  heap (assign_angle r a st) r'
  = if Nat.eqb r' r then set_angle a (heap st r) else heap st r'.
Proof. reflexivity. Qed.

Lemma assign_angle_same_but_angle r a st r' :
  same_but_angle (heap st r') (heap (assign_angle r a st) r').
Proof.
  rewrite assign_angle_heap.
  destruct (Nat.eqb_spec r' r) as [-> | _]; repeat split.
Qed.

(** The inner loop [for (let part of body.parts) part.angle = body.angle]. *)
Lemma sync_parts_spec (body : BodyRef) (ps : list BodyRef) (st : State) :
  let st' := fold_left (sync_part body) ps st in
  world st' = world st /\
  vecs st' = vecs st /\
  (forall r, same_but_angle (heap st r) (heap st' r)) /\
  (forall r, In r ps -> angle (heap st' r) = angle (heap st body)) /\
  (forall r, ~ In r ps -> heap st' r = heap st r) /\
  angle (heap st' body) = angle (heap st body).
Proof.
  cbv zeta. revert st.
  induction ps as [ | p ps IH]; intros st.
  - cbn. repeat split; auto. contradiction.
  - cbn [fold_left].
    set (st1 := sync_part body st p).
    assert (Hb : angle (heap st1 body) = angle (heap st body)).
    { unfold st1, sync_part. rewrite assign_angle_heap.
      now destruct (Nat.eqb_spec body p) as [-> | _]. }
    destruct (IH st1) as (Hw & Hv & Hs & Hin & Hout & Hbody).
    split; [exact Hw | split; [exact Hv | split; [ | split; [ | split ] ] ] ].
    + intros r. eapply same_but_angle_trans; [ | apply Hs ].
      apply assign_angle_same_but_angle.
    + intros r Hr.
      destruct (in_dec Nat.eq_dec r ps) as [Hps | Hps].
      * rewrite (Hin r Hps). exact Hb.
      * rewrite (Hout r Hps).
        destruct Hr as [-> | Hr]; [ | contradiction ].
        unfold st1, sync_part. rewrite assign_angle_heap, Nat.eqb_refl. reflexivity.
    + intros r Hr. rewrite Hout by (intros Hps; apply Hr; now right).
      unfold st1, sync_part. rewrite assign_angle_heap.
      destruct (Nat.eqb_spec r p) as [-> | _]; [ | reflexivity ].
      exfalso. apply Hr. now left.
    + now rewrite Hbody.
Qed.

Lemma synced_spec (st : State) (body : BodyRef) :
  world (synced st body) = world st /\
  vecs (synced st body) = vecs st /\
  (forall r, same_but_angle (heap st r) (heap (synced st body) r)) /\
  (forall r, ~ In r (parts (heap st body)) ->
             heap (synced st body) r = heap st r) /\
  angle (heap (synced st body) body) = angle (heap st body) /\
  ((1 < List.length (parts (heap st body)))%nat ->
   forall r, In r (parts (heap st body)) ->
             angle (heap (synced st body) r) = angle (heap st body)).
Proof.
  unfold synced.
  destruct (Nat.ltb_spec 1 (List.length (parts (heap st body)))) as [Hlt | Hge].
  - destruct (sync_parts_spec body (parts (heap st body)) st)
      as (Hw & Hv & Hs & Hin & Hout & Hb).
    repeat split; try assumption; try apply Hs. intros _. exact Hin.
  - repeat split; auto. intros Hlt. lia.
Qed.

Lemma afterUpdate_body_unfold (st : State) (body : BodyRef) :
  afterUpdate_body st body
  = if String.eqb (label (heap st body)) "Block"
       && js_gt (shockAbsorbed (heap st body)) 500
    then with_world (Composite.remove (world st) body true) (synced st body)
    else synced st body.
Proof.
  unfold afterUpdate_body. cbv zeta.
  destruct (synced_spec st body) as (Hw & _ & Hs & _).
  destruct (Hs body) as (-> & _ & _ & _ & _ & _ & -> & _).
  rewrite Hw.
  destruct (String.eqb (label (heap st body)) "Block"); [ | reflexivity ].
  now destruct (js_gt (shockAbsorbed (heap st body)) 500).
Qed.

(** One body of the post-step pass: the heap is the synchronised one, the
    world loses the body when it is a block over the threshold. *)
Lemma afterUpdate_body_spec (st : State) (body : BodyRef) :
  heap (afterUpdate_body st body) = heap (synced st body) /\
  vecs (afterUpdate_body st body) = vecs st /\
  world (afterUpdate_body st body)
  = if String.eqb (label (heap st body)) "Block"
       && js_gt (shockAbsorbed (heap st body)) 500
    then Composite.remove (world st) body true
    else world st.
Proof.
  rewrite afterUpdate_body_unfold.
  destruct (synced_spec st body) as (Hw & Hv & _).
  destruct (String.eqb (label (heap st body)) "Block"
            && js_gt (shockAbsorbed (heap st body)) 500); auto.
Qed.

Lemma afterUpdate_body_same_but_angle (st : State) (body r : BodyRef) :
  same_but_angle (heap st r) (heap (afterUpdate_body st body) r).
Proof.
  destruct (afterUpdate_body_spec st body) as (-> & _).
  apply synced_spec.
Qed.

Lemma afterUpdate_fold_same_but_angle (l : list BodyRef) (st : State) (r : BodyRef) :
  same_but_angle (heap st r) (heap (fold_left afterUpdate_body l st) r).
Proof.
  revert st. induction l as [ | b l IH]; intros st.
  - apply same_but_angle_refl.
  - cbn [fold_left]. eapply same_but_angle_trans; [ | apply IH ].
    apply afterUpdate_body_same_but_angle.
Qed.

Lemma afterUpdate_fold_world_le (l : list BodyRef) (st : State) (r : BodyRef) :
  (occurrences r (world (fold_left afterUpdate_body l st))
   <= occurrences r (world st))%nat.
Proof.
  revert st. induction l as [ | b l IH]; intros st; [apply Nat.le_refl | ].
  cbn [fold_left]. eapply Nat.le_trans; [apply IH | ].
  destruct (afterUpdate_body_spec st b) as (_ & _ & ->).
  destruct (String.eqb (label (heap st b)) "Block"
            && js_gt (shockAbsorbed (heap st b)) 500).
  - apply occurrences_remove_le.
  - apply Nat.le_refl.
Qed.

(** A block over the threshold is taken out once per visit: when the world
    holds no more occurrences of it than the bodies still to visit, none is
    left at the end. *)
Lemma afterUpdate_fold_removes (l : list BodyRef) (st : State) (r : BodyRef) :
  label (heap st r) = "Block"%string ->
  js_gt (shockAbsorbed (heap st r)) 500 = true ->
  (occurrences r (world st) <= count_occ Nat.eq_dec l r)%nat ->
  occurrences r (world (fold_left afterUpdate_body l st)) = 0%nat.
Proof.
  revert st. induction l as [ | b l IH]; intros st Hl Hgt Hle.
  - cbn in *. lia.
  - cbn [fold_left].
    destruct (afterUpdate_body_same_but_angle st b r)
      as (Hl1 & _ & _ & _ & _ & _ & Hs1 & _).
    apply IH; [congruence | congruence | ].
    destruct (afterUpdate_body_spec st b) as (_ & _ & ->).
    destruct (Nat.eq_dec b r) as [-> | Hne].
    + assert (Hc : String.eqb (label (heap st r)) "Block"
                   && js_gt (shockAbsorbed (heap st r)) 500 = true)
        by (rewrite Hl, Hgt; reflexivity).
      rewrite Hc.
      rewrite count_occ_cons_eq in Hle by reflexivity.
      pose proof (occurrences_remove_same r (world st)). lia.
    + rewrite count_occ_cons_neq in Hle by exact Hne.
      destruct (String.eqb (label (heap st b)) "Block"
                && js_gt (shockAbsorbed (heap st b)) 500).
      * now rewrite occurrences_remove_other.
      * exact Hle.
Qed.

(** A body that fails the test of lines 58-59 stays as often as it was. *)
Lemma afterUpdate_fold_keeps (l : list BodyRef) (st : State) (r : BodyRef) :
  String.eqb (label (heap st r)) "Block"
  && js_gt (shockAbsorbed (heap st r)) 500 = false ->
  occurrences r (world (fold_left afterUpdate_body l st))
  = occurrences r (world st).
Proof.
  revert st. induction l as [ | b l IH]; intros st Hr; [reflexivity | ].
  cbn [fold_left].
  destruct (afterUpdate_body_same_but_angle st b r)
    as (Hl1 & _ & _ & _ & _ & _ & Hs1 & _).
  rewrite IH by now rewrite Hl1, Hs1.
  destruct (afterUpdate_body_spec st b) as (_ & _ & ->).
  destruct (Nat.eq_dec b r) as [-> | Hne].
  - now rewrite Hr.
  - destruct (String.eqb (label (heap st b)) "Block"
              && js_gt (shockAbsorbed (heap st b)) 500); [ | reflexivity ].
    now apply occurrences_remove_other.
Qed.

Lemma owns_frame (st st' : State) (b : BodyRef) :
  (forall r, same_but_angle (heap st r) (heap st' r)) ->
  owns st b -> owns st' b.
Proof.
  intros Hs [Hp Hq]. unfold owns.
  destruct (Hs b) as (_ & _ & _ & _ & _ & _ & _ & -> & ->).
  split; [exact Hp | ].
  intros q Hin. destruct (Hs q) as (_ & _ & _ & _ & _ & _ & _ & _ & ->). auto.
Qed.

(** The angle of a compound body of the world is not changed by the pass,
    and once the body has been visited its parts hold that angle for good. *)
Lemma afterUpdate_fold_angles (l : list BodyRef) (st : State) (b : BodyRef) :
  (forall x, In x l -> owns st x) ->
  owns st b ->
  (1 < List.length (parts (heap st b)))%nat ->
  let st' := fold_left afterUpdate_body l st in
  angle (heap st' b) = angle (heap st b) /\
  (In b l \/
   (forall q, In q (parts (heap st b)) -> angle (heap st q) = angle (heap st b)) ->
   forall q, In q (parts (heap st b)) -> angle (heap st' q) = angle (heap st b)).
Proof.
  cbv zeta. revert st.
  induction l as [ | x l IH]; intros st Hl Hb Hlen.
  - cbn. split; [reflexivity | ]. intros [[] | H]; exact H.
  - cbn [fold_left].
    set (st1 := afterUpdate_body st x).
    assert (Hs : forall r, same_but_angle (heap st r) (heap st1 r))
      by (intros r; apply afterUpdate_body_same_but_angle).
    assert (Hh : heap st1 = heap (synced st x)) by apply afterUpdate_body_spec.
    destruct (synced_spec st x) as (_ & _ & _ & Hout & Hself & Hin).
    rewrite <- Hh in Hout, Hself, Hin.
    assert (Hparts : parts (heap st1 b) = parts (heap st b)) by apply (Hs b).
    assert (Hx : owns st x) by (apply Hl; now left).
    (* the body's own angle *)
    assert (Hang : angle (heap st1 b) = angle (heap st b)).
    { destruct (in_dec Nat.eq_dec b (parts (heap st x))) as [Hbx | Hbx].
      - assert (x = b) by (destruct Hx as [_ Hx], Hb as [Hb _];
                           rewrite <- (Hx b Hbx); exact Hb).
        subst x. exact Hself.
      - now rewrite Hout. }
    destruct (IH st1) as (IHb & IHq).
    { intros y Hy. apply (owns_frame st st1 y Hs). apply Hl. now right. }
    { exact (owns_frame st st1 b Hs Hb). }
    { now rewrite Hparts. }
    rewrite Hang in IHb. rewrite Hparts, Hang in IHq.
    split; [exact IHb | ].
    intros Hcase. apply IHq.
    destruct (Nat.eq_dec x b) as [-> | Hne].
    + right. intros q Hq. exact (Hin Hlen q Hq).
    + destruct Hcase as [[E | Hbl] | Hall]; [contradiction | now left | right].
      intros q Hq.
      rewrite Hout; [now apply Hall | ].
      intros Hqx. apply Hne.
      destruct Hx as [_ Hx], Hb as [_ Hb].
      rewrite <- (Hx q Hqx). now apply Hb.
Qed.

(** ** Claims about afterUpdate *)

(** C4: a body of the world labeled "Block" whose [shockAbsorbed] exceeds
    500 when the post-step hook runs is not among the bodies of the world
    after the pass; its parts go with it: no part of it that was not itself
    a body of the world is one afterwards. *)
Theorem block_over_threshold_is_removed (st : State) (r : BodyRef) (t : Z) :
  In r (Composite.allBodies (world st)) ->
  label (heap st r) = "Block"%string ->
  shockAbsorbed (heap st r) = Number t ->
  500 < t ->
  ~ In r (Composite.allBodies (world (afterUpdate st))) /\
  (forall q, In q (parts (heap st r)) ->
             ~ In q (Composite.allBodies (world st)) ->
             ~ In q (Composite.allBodies (world (afterUpdate st)))).
Proof.
  intros _ Hl Hsa Ht. unfold afterUpdate. cbv zeta. split.
  - apply occurrences_not_In.
    apply afterUpdate_fold_removes.
    + exact Hl.
    + rewrite Hsa. cbn [js_gt]. now apply Z.ltb_lt.
    + apply Nat.le_refl.
  - intros q _ Hq. apply occurrences_not_In. apply occurrences_not_In in Hq.
    pose proof (afterUpdate_fold_world_le
                  (Composite.allBodies (world st)) st q). lia.
Qed.

Lemma block_over_threshold_is_removed_witness :
  In 1%nat (Composite.allBodies (world damaged_scene)) /\
  ~ In 1%nat (Composite.allBodies (world (afterUpdate damaged_scene))).
Proof.
  assert (Hin : In 1%nat (Composite.allBodies (world damaged_scene)))
    by (right; left; reflexivity).
  split; [exact Hin | ].
  exact (proj1 (block_over_threshold_is_removed damaged_scene 1 501
                  Hin eq_refl eq_refl eq_refl)).
Defined.

(** C10: the handler is a total function of the state (none of its
    statements can raise), [undefined > 500] is false, and a body of the
    world labeled "Block" whose [shockAbsorbed] was never initialized is
    still a body of the world after the pass. *)
Theorem uninitialized_block_survives (st : State) (r : BodyRef) :
  In r (Composite.allBodies (world st)) ->
  label (heap st r) = "Block"%string ->
  shockAbsorbed (heap st r) = Undefined ->
  js_gt (shockAbsorbed (heap st r)) 500 = false /\
  In r (Composite.allBodies (world (afterUpdate st))) /\
  occurrences r (world (afterUpdate st)) = occurrences r (world st).
Proof.
  intros Hin Hl Hsa.
  assert (Hgt : js_gt (shockAbsorbed (heap st r)) 500 = false) by now rewrite Hsa.
  assert (Hocc : occurrences r (world (afterUpdate st)) = occurrences r (world st)).
  { unfold afterUpdate. cbv zeta. apply afterUpdate_fold_keeps.
    rewrite Hgt. apply andb_false_r. }
  split; [exact Hgt | split; [ | exact Hocc ] ].
  apply occurrences_In. rewrite Hocc. now apply occurrences_In.
Qed.

Lemma uninitialized_block_survives_witness :
  In 2%nat (Composite.allBodies (world (afterUpdate damaged_scene))).
Proof.
  assert (Hin : In 2%nat (Composite.allBodies (world damaged_scene)))
    by (right; right; left; reflexivity).
  exact (proj1 (proj2 (uninitialized_block_survives damaged_scene 2
                         Hin eq_refl eq_refl))).
Defined.

(** C6: in a world whose bodies own their parts, every part of a compound
    body of the world has, after the post-step pass, the angle the compound
    body has after the pass (which is the angle it had before). *)
Theorem compound_parts_share_angle (st : State) (b q : BodyRef) :
  parts_owned st ->
  In b (Composite.allBodies (world st)) ->
  (1 < List.length (parts (heap st b)))%nat ->
  In q (parts (heap st b)) ->
  parts (heap (afterUpdate st) b) = parts (heap st b) /\
  angle (heap (afterUpdate st) b) = angle (heap st b) /\
  angle (heap (afterUpdate st) q) = angle (heap (afterUpdate st) b).
Proof.
  intros Hown Hb Hlen Hq.
  destruct (afterUpdate_fold_angles (Composite.allBodies (world st)) st b)
    as (Hang & Hparts); [exact Hown | now apply Hown | exact Hlen | ].
  fold (afterUpdate st) in Hang, Hparts.
  split; [ | split ].
  - apply (afterUpdate_fold_same_but_angle (Composite.allBodies (world st)) st b).
  - exact Hang.
  - rewrite Hang. apply Hparts; [now left | exact Hq].
Qed.

Lemma compound_parts_share_angle_witness :
  angle (heap tilted_scene 2%nat) = 0%Q /\
  angle (heap (afterUpdate tilted_scene) 2%nat) = (1 # 2)%Q /\
  angle (heap (afterUpdate tilted_scene) 2%nat)
  = angle (heap (afterUpdate tilted_scene) 0%nat).
Proof.
  assert (H : angle (heap (afterUpdate tilted_scene) 2%nat)
              = angle (heap (afterUpdate tilted_scene) 0%nat)).
  { apply (compound_parts_share_angle tilted_scene 0 2).
    - intros b [<- | []]. split; [reflexivity | ].
      intros q [<- | [<- | [<- | []]]]; reflexivity.
    - left. reflexivity.
    - cbn. lia.
    - right. right. left. reflexivity. }
  split; [reflexivity | split; [reflexivity | exact H] ].
Defined.

(** ** beforeUpdate *)

Lemma same_but_velocityPrev_refl (b : Body) : same_but_velocityPrev b b.
Proof. repeat split. Qed.

Lemma same_but_velocityPrev_trans (b1 b2 b3 : Body) :
  same_but_velocityPrev b1 b2 -> same_but_velocityPrev b2 b3 ->
  same_but_velocityPrev b1 b3.
Proof.
  unfold same_but_velocityPrev. intros H12 H23.
  repeat match goal with H : _ /\ _ |- _ => destruct H end.
  repeat split; congruence.
Qed.

Lemma assign_velocityPrev_heap r v st r' :
  heap (assign_velocityPrev r v st) r'
  = if Nat.eqb r' r then set_velocityPrev v (heap st r) else heap st r'.
Proof. reflexivity. Qed.

(** One part of the pre-step pass. *)
Lemma beforeUpdate_part_spec (st : State) (part : BodyRef) :
  let st' := beforeUpdate_part st part in
  vecs st' = vecs st /\
  (forall r, same_but_velocityPrev (heap st r) (heap st' r)) /\
  (forall r, r <> part -> heap st' r = heap st r) /\
  (asleep_projectile st part = true ->
   heap st' = heap st /\ world st' = Composite.remove (world st) part true) /\
  (asleep_projectile st part = false ->
   world st' = world st /\
   velocityPrev (heap st' part) = Some (velocity (heap st part))).
Proof.
  cbv zeta. unfold beforeUpdate_part.
  destruct (asleep_projectile st part).
  - split; [reflexivity | split; [ | split; [ | split ] ] ].
    + intros r. apply same_but_velocityPrev_refl.
    + reflexivity.
    + intros _. split; reflexivity.
    + discriminate.
  - split; [reflexivity | split; [ | split; [ | split ] ] ].
    + intros r. rewrite assign_velocityPrev_heap.
      destruct (Nat.eqb_spec r part) as [-> | _]; repeat split.
    + intros r Hne. rewrite assign_velocityPrev_heap.
      now destruct (Nat.eqb_spec r part).
    + discriminate.
    + intros _. split; [reflexivity | ].
      now rewrite assign_velocityPrev_heap, Nat.eqb_refl.
Qed.

Lemma asleep_projectile_frame (st st' : State) (r : BodyRef) :
  same_but_velocityPrev (heap st r) (heap st' r) ->
  asleep_projectile st' r = asleep_projectile st r.
Proof.
  intros (Hl & _ & Hs & _). unfold asleep_projectile. now rewrite Hl, Hs.
Qed.

(** Visiting parts never writes to a sleeping projectile, and takes out one
    of its occurrences in the world each time it is the part visited. *)
Lemma beforeUpdate_parts_asleep (ps : list BodyRef) (st : State) (p : BodyRef) :
  asleep_projectile st p = true ->
  let st' := fold_left beforeUpdate_part ps st in
  heap st' p = heap st p /\
  (occurrences p (world st')
   <= occurrences p (world st) - count_occ Nat.eq_dec ps p)%nat.
Proof.
  cbv zeta. revert st. induction ps as [ | x ps IH]; intros st Hp.
  - cbn. split; [reflexivity | lia].
  - cbn [fold_left].
    destruct (beforeUpdate_part_spec st x) as (_ & Hs & Ho & Hrem & Hkeep).
    destruct (IH (beforeUpdate_part st x)) as (Hh & Hocc).
    { now rewrite (asleep_projectile_frame st _ p (Hs p)). }
    destruct (Nat.eq_dec x p) as [-> | Hne].
    + destruct (Hrem Hp) as (Hheap & Hw).
      rewrite Hheap in Hh. rewrite Hw in Hocc.
      split; [exact Hh | ].
      rewrite count_occ_cons_eq by reflexivity.
      pose proof (occurrences_remove_same p (world st)). lia.
    + rewrite (Ho p) in Hh by congruence.
      split; [exact Hh | ].
      rewrite count_occ_cons_neq by exact Hne.
      eapply Nat.le_trans; [exact Hocc | ].
      apply Nat.sub_le_mono_r.
      destruct (asleep_projectile st x) eqn:Ex.
      * destruct (Hrem eq_refl) as (_ & ->). apply occurrences_remove_le.
      * destruct (Hkeep eq_refl) as (-> & _). apply Nat.le_refl.
Qed.

Lemma beforeUpdate_parts_frame (ps : list BodyRef) (st : State) :
  let st' := fold_left beforeUpdate_part ps st in
  vecs st' = vecs st /\
  (forall r, same_but_velocityPrev (heap st r) (heap st' r)) /\
  (forall r, ~ In r ps -> heap st' r = heap st r).
Proof.
  cbv zeta. revert st. induction ps as [ | x ps IH]; intros st.
  - cbn. repeat split; auto.
  - cbn [fold_left].
    destruct (beforeUpdate_part_spec st x) as (Hv & Hs & Ho & _).
    destruct (IH (beforeUpdate_part st x)) as (Hv' & Hs' & Ho').
    split; [congruence | split].
    + intros r. eapply same_but_velocityPrev_trans; [apply Hs | apply Hs'].
    + intros r Hr. rewrite Ho' by (intros H; apply Hr; now right).
      apply Ho. intros ->. apply Hr. now left.
Qed.

Lemma beforeUpdate_bodies_asleep (l : list BodyRef) (st : State) (p : BodyRef) :
  asleep_projectile st p = true ->
  (In p l -> In p (parts (heap st p))) ->
  (occurrences p (world st) <= count_occ Nat.eq_dec l p)%nat ->
  let st' := fold_left beforeUpdate_body l st in
  heap st' p = heap st p /\ occurrences p (world st') = 0%nat.
Proof.
  cbv zeta. revert st. induction l as [ | x l IH]; intros st Hp Hself Hle.
  - cbn in *. split; [reflexivity | lia].
  - cbn [fold_left]. unfold beforeUpdate_body at 2 4.
    destruct (beforeUpdate_parts_asleep (parts (heap st x)) st p Hp) as (Hh & Hocc).
    destruct (beforeUpdate_parts_frame (parts (heap st x)) st) as (_ & Hs & _).
    set (st1 := fold_left beforeUpdate_part (parts (heap st x)) st) in *.
    destruct (IH st1) as (Hh' & Hocc').
    + now rewrite (asleep_projectile_frame st st1 p (Hs p)).
    + intros Hin. rewrite Hh. apply Hself. now right.
    + destruct (Nat.eq_dec x p) as [-> | Hne].
      * rewrite count_occ_cons_eq in Hle by reflexivity.
        assert (Hvisit : In p (parts (heap st p))) by (apply Hself; now left).
        apply (count_occ_In Nat.eq_dec) in Hvisit. lia.
      * rewrite count_occ_cons_neq in Hle by exact Hne. lia.
    + split; [congruence | exact Hocc'].
Qed.

(** A part that is visited and is not a sleeping projectile ends the pass
    with [velocityPrev] referring to its own velocity vector. *)
Lemma beforeUpdate_parts_snapshot (ps : list BodyRef) (st : State) (q : BodyRef) :
  asleep_projectile st q = false ->
  In q ps \/ velocityPrev (heap st q) = Some (velocity (heap st q)) ->
  velocityPrev (heap (fold_left beforeUpdate_part ps st) q)
  = Some (velocity (heap st q)).
Proof.
  revert st. induction ps as [ | x ps IH]; intros st Hq Hcase.
  - cbn. destruct Hcase as [[] | H]; exact H.
  - cbn [fold_left].
    destruct (beforeUpdate_part_spec st x) as (_ & Hs & Ho & _ & Hkeep).
    assert (Hvel : velocity (heap (beforeUpdate_part st x) q) = velocity (heap st q))
      by apply (Hs q).
    rewrite <- Hvel. apply IH.
    + now rewrite (asleep_projectile_frame st _ q (Hs q)).
    + rewrite Hvel.
      destruct (Nat.eq_dec x q) as [-> | Hne].
      * right. now apply Hkeep.
      * rewrite (Ho q) by congruence.
        destruct Hcase as [[E | Hin] | H]; [contradiction | now left | now right].
Qed.

Lemma beforeUpdate_bodies_snapshot (l : list BodyRef) (st : State) (q : BodyRef) :
  asleep_projectile st q = false ->
  (exists b, In b l /\ In q (parts (heap st b)))
  \/ velocityPrev (heap st q) = Some (velocity (heap st q)) ->
  velocityPrev (heap (fold_left beforeUpdate_body l st) q)
  = Some (velocity (heap st q)).
Proof.
  revert st. induction l as [ | x l IH]; intros st Hq Hcase.
  - cbn. destruct Hcase as [(b & [] & _) | H]; exact H.
  - cbn [fold_left]. unfold beforeUpdate_body at 2.
    destruct (beforeUpdate_parts_frame (parts (heap st x)) st) as (_ & Hs & _).
    pose proof (beforeUpdate_parts_snapshot (parts (heap st x)) st q Hq) as Hsnap.
    set (st1 := fold_left beforeUpdate_part (parts (heap st x)) st) in *.
    assert (Hvel : velocity (heap st1 q) = velocity (heap st q)) by apply (Hs q).
    rewrite <- Hvel. apply IH.
    + now rewrite (asleep_projectile_frame st st1 q (Hs q)).
    + rewrite Hvel.
      destruct Hcase as [(b & [-> | Hb] & Hparts) | H].
      * right. apply Hsnap. now left.
      * left. exists b. split; [exact Hb | ].
        destruct (Hs b) as (_ & _ & _ & _ & _ & _ & _ & -> & _). exact Hparts.
      * right. apply Hsnap. now right.
Qed.

Lemma beforeUpdate_vecs (st : State) : vecs (beforeUpdate st) = vecs st.
Proof.
  unfold beforeUpdate. cbv zeta.
  generalize (Composite.allBodies (world st)). intros l. revert st.
  induction l as [ | x l IH]; intros st; [reflexivity | ].
  cbn [fold_left]. rewrite IH. unfold beforeUpdate_body.
  apply beforeUpdate_parts_frame.
Qed.

(** X12: what the pre-step pass establishes for a part it does not remove:
    right after the pass [velocityPrev] reads the velocity the part had
    before the pass, because it refers to the part's velocity vector itself,
    so an in-place write to that vector is read through [velocityPrev]
    too. *)
Lemma beforeUpdate_snapshot_is_an_alias (st : State) (b q : BodyRef) :
  In b (Composite.allBodies (world st)) ->
  In q (parts (heap st b)) ->
  asleep_projectile st q = false ->
  read_velocityPrev (beforeUpdate st) q = Some (read_velocity st q) /\
  forall v, read_velocityPrev (write_velocity q v (beforeUpdate st)) q = Some v.
Proof.
  intros Hb Hq Hawake.
  assert (Hsnap : velocityPrev (heap (beforeUpdate st) q)
                  = Some (velocity (heap st q))).
  { unfold beforeUpdate. cbv zeta. apply beforeUpdate_bodies_snapshot.
    - exact Hawake.
    - left. exists b. now split. }
  assert (Hvel : velocity (heap (beforeUpdate st) q) = velocity (heap st q)).
  { unfold beforeUpdate. cbv zeta.
    generalize (Composite.allBodies (world st)). intros l.
    clear Hb Hq Hawake Hsnap b. revert st.
    induction l as [ | x l IH]; intros st; [reflexivity | ].
    cbn [fold_left]. rewrite IH. unfold beforeUpdate_body.
    apply (beforeUpdate_parts_frame (parts (heap st x)) st). }
  split.
  - unfold read_velocityPrev, read_velocity.
    now rewrite Hsnap, beforeUpdate_vecs.
  - intros v. unfold read_velocityPrev, write_velocity. cbn [heap vecs].
    rewrite Hsnap, Hvel. cbn [option_map]. now rewrite Nat.eqb_refl.
Qed.

(** ** Claims about beforeUpdate *)

(** C5: a part labeled "Projectile" whose sleep flag is set when the
    pre-step hook runs is not among the bodies of the world after the pass
    (a body of the world is one of its own parts, [parts[0]], which is how
    the loop over parts reaches it), and the pass writes nothing to it: its
    [velocityPrev], like every other field, is what it was. *)
Theorem sleeping_projectile_is_removed (st : State) (p : BodyRef) :
  label (heap st p) = "Projectile"%string ->
  isSleeping (heap st p) = true ->
  (In p (Composite.allBodies (world st)) -> In p (parts (heap st p))) ->
  ~ In p (Composite.allBodies (world (beforeUpdate st))) /\
  velocityPrev (heap (beforeUpdate st) p) = velocityPrev (heap st p) /\
  heap (beforeUpdate st) p = heap st p.
Proof.
  intros Hl Hs Hself.
  destruct (beforeUpdate_bodies_asleep (Composite.allBodies (world st)) st p)
    as (Hh & Hocc).
  - unfold asleep_projectile. now rewrite Hl, Hs.
  - exact Hself.
  - apply Nat.le_refl.
  - fold (beforeUpdate st) in Hh, Hocc.
    split; [now apply occurrences_not_In | split; [now rewrite Hh | exact Hh] ].
Qed.

Lemma sleeping_projectile_is_removed_witness :
  In 1%nat (Composite.allBodies (world resting_scene)) /\
  ~ In 1%nat (Composite.allBodies (world (beforeUpdate resting_scene))) /\
  velocityPrev (heap (beforeUpdate resting_scene) 1%nat) = Some 2%nat.
Proof.
  split; [right; left; reflexivity | ].
  destruct (sleeping_projectile_is_removed resting_scene 1 eq_refl eq_refl
              (fun _ => or_introl eq_refl)) as (Hout & Hprev & _).
  split; [exact Hout | exact Hprev].
Defined.

(** C7: right after the pre-step pass the block of [resting_scene] reads
    (3,0), its velocity before the pass, through [velocityPrev]; but the
    field refers to the velocity vector itself, so once the integration
    step has written the new velocity (5,0) into that vector, and before
    any other pre-step pass, [velocityPrev] reads (5,0) as well. *)
Theorem velocityPrev_follows_velocity :
  let st1 := beforeUpdate resting_scene in
  let st2 := write_velocity 0 (MkVector 5 0) st1 in
  read_velocity resting_scene 0 = MkVector 3 0 /\
  In 0%nat (Composite.allBodies (world st1)) /\
  read_velocityPrev st1 0 = Some (MkVector 3 0) /\
  read_velocity st2 0 = MkVector 5 0 /\
  read_velocityPrev st2 0 = Some (MkVector 5 0) /\
  read_velocityPrev st2 0 <> Some (read_velocity resting_scene 0).
Proof.
  cbv zeta. repeat split; try reflexivity.
  - left. reflexivity.
  - discriminate.
Qed.

(** * Further properties of the handlers *)

(** ** collisionStart: completion *)

Lemma shock_defined_iff (st : State) (p : Pair) :
  (exists s, shock st p = Some s) <-> pair_ready st p.
Proof.
  unfold shock, momentum, pair_ready.
  destruct (velocityPrev (heap st (bodyA p))) as [va | ];
    destruct (velocityPrev (heap st (bodyB p))) as [vb | ]; split.
  all: try (intros _; split; discriminate).
  all: try (intros _; eexists; reflexivity).
  all: try (intros [s Hs]; discriminate).
  all: intros [Ha Hb]; congruence.
Qed.

Lemma pair_ready_frame (st st' : State) (p : Pair) :
  (forall r, same_but_shock (heap st r) (heap st' r)) ->
  pair_ready st' p <-> pair_ready st p.
Proof.
  intros Hh. unfold pair_ready.
  destruct (Hh (bodyA p)) as (_ & _ & _ & _ & _ & _ & -> & _).
  destruct (Hh (bodyB p)) as (_ & _ & _ & _ & _ & _ & -> & _).
  reflexivity.
Qed.

(** The handler on a concatenation: the second list starts where the first
    one ended, unless the first one was cut short. *)
Lemma collisionStart_app (l1 l2 : list Pair) (st : State) :
  collisionStart (l1 ++ l2) st
  = match collisionStart l1 st with
    | Normal st1 => collisionStart l2 st1
    | TypeError st1 => TypeError st1
    end.
Proof.
  revert st. induction l1 as [ | p l1 IH]; intros st; [reflexivity | ].
  cbn [app collisionStart].
  destruct (collisionStart_pair st p) as [st1 | st1]; [apply IH | reflexivity].
Qed.

Lemma collisionStart_normal_ready (pairs : list Pair) (st : State) :
  Forall (pair_ready st) pairs -> exists st', collisionStart pairs st = Normal st'.
Proof.
  revert st. induction pairs as [ | p rest IH]; intros st Hall.
  - now exists st.
  - inversion Hall as [ | ? ? Hp Hrest]; subst.
    apply shock_defined_iff in Hp. destruct Hp as [s Hs].
    cbn [collisionStart]. rewrite (collisionStart_pair_normal st p s Hs).
    apply IH.
    destruct (collisionStart_pair_frame st p) as (_ & _ & Hh & _).
    rewrite (collisionStart_pair_normal st p s Hs) in Hh. cbn [state_of] in Hh.
    eapply Forall_impl; [ | exact Hrest ].
    intros q Hq. now apply (pair_ready_frame st _ q Hh).
Qed.

Lemma collisionStart_ready_normal (pairs : list Pair) (st st' : State) :
  collisionStart pairs st = Normal st' -> Forall (pair_ready st) pairs.
Proof.
  revert st. induction pairs as [ | p rest IH]; intros st Hrun; [constructor | ].
  cbn [collisionStart] in Hrun.
  destruct (collisionStart_pair_frame st p) as (_ & _ & Hh & _).
  unfold collisionStart_pair in Hrun, Hh.
  destruct (shock st p) as [s | ] eqn:Hs; [ | discriminate ].
  cbn [state_of] in Hh.
  constructor.
  - apply shock_defined_iff. now exists s.
  - eapply Forall_impl; [ | exact (IH _ Hrun) ].
    intros q Hq. now apply (pair_ready_frame st _ q Hh).
Qed.

(** X1: the handler runs to its end exactly when both bodies of every pair
    of the list have a [velocityPrev]; otherwise it raises. *)
Theorem collisionStart_completes_iff_ready (pairs : list Pair) (st : State) :
  (exists st', collisionStart pairs st = Normal st')
  <-> Forall (pair_ready st) pairs.
Proof.
  split.
  - intros [st' Hrun]. exact (collisionStart_ready_normal pairs st st' Hrun).
  - apply collisionStart_normal_ready.
Qed.

(** X2: when a pair of the list has a body without [velocityPrev], the
    handler raises there: the pairs before it have been tallied, the pairs
    after it are never looked at. *)
Theorem collisionStart_stops_at_unready_pair
    (l1 l2 : list Pair) (p : Pair) (st st1 : State) :
  collisionStart l1 st = Normal st1 ->
  ~ pair_ready st p ->
  collisionStart (l1 ++ p :: l2) st = TypeError st1.
Proof.
  intros Hrun Hp. rewrite collisionStart_app, Hrun.
  cbn [collisionStart]. unfold collisionStart_pair.
  destruct (shock st1 p) as [s | ] eqn:Hs; [ | reflexivity ].
  exfalso. apply Hp.
  destruct (collisionStart_removes_nothing_aux l1 st) as (_ & Hh).
  rewrite Hrun in Hh. cbn [state_of] in Hh.
  apply (pair_ready_frame st st1 p Hh). apply shock_defined_iff. now exists s.
Qed.

Lemma collisionStart_stops_at_unready_pair_witness :
  exists st1,
    collisionStart [MkPair 0 1; MkPair 1 2; MkPair 0 1] late_scene = TypeError st1 /\
    shockAbsorbed (heap st1 0%nat) = Number 12.
Proof.
  eexists. split.
  - apply (collisionStart_stops_at_unready_pair
             [MkPair 0 1] [MkPair 0 1] (MkPair 1 2) late_scene).
    + reflexivity.
    + intros [_ H]. apply H. reflexivity.
  - reflexivity.
Defined.

(** ** collisionStart: what the counters can hold *)

Lemma add_shock_heap r d st r' :
  heap (add_shock r d st) r'
  = if Nat.eqb r' r
    then set_shockAbsorbed (Number (total_of (shockAbsorbed (heap st r)) + d))
           (heap st r)
    else heap st r'.
Proof. reflexivity. Qed.

Lemma add_shock_total r d st r' :
  total_of (shockAbsorbed (heap (add_shock r d st) r'))
  = if Nat.eqb r' r
    then total_of (shockAbsorbed (heap st r)) + d
    else total_of (shockAbsorbed (heap st r')).
Proof. rewrite add_shock_heap. now destruct (Nat.eqb r' r). Qed.

Lemma add_shock_number r d st r' :
  is_number (shockAbsorbed (heap st r')) \/ r' = r ->
  is_number (shockAbsorbed (heap (add_shock r d st) r')).
Proof.
  intros H. rewrite add_shock_heap.
  destruct (Nat.eqb_spec r' r) as [-> | Hne].
  - eexists. reflexivity.
  - destruct H as [H | H]; [exact H | contradiction].
Qed.

Lemma shock_nonneg (st : State) (p : Pair) (s : Z) :
  shock st p = Some s -> 0 <= s.
Proof.
  unfold shock.
  destruct (momentum st (bodyA p)), (momentum st (bodyB p)); try discriminate.
  intros [= <-]. apply Z.sqrt_nonneg.
Qed.

(** One body of a pair never lowers a counter, as long as no counter is
    negative. *)
Lemma absorb_monotone b s st :
  0 <= s ->
  (forall r, 0 <= total_of (shockAbsorbed (heap st r))) ->
  forall r, total_of (shockAbsorbed (heap st r))
            <= total_of (shockAbsorbed (heap (absorb b s st) r)).
Proof.
  intros Hs Hpos r. rewrite absorb_accumulate.
  unfold accumulate. cbv zeta.
  assert (Hp : parent (heap (add_shock b s st) b) = parent (heap st b)).
  { rewrite add_shock_heap, Nat.eqb_refl. reflexivity. }
  rewrite Hp. set (P := parent (heap st b)).
  pose proof (Hpos r) as Hr. pose proof (Hpos b) as Hb. pose proof (Hpos P) as HP.
  rewrite !add_shock_total, Nat.eqb_refl.
  destruct (Nat.eqb_spec r P) as [-> | _];
    destruct (Nat.eqb_spec P b) as [E | _]; rewrite ?E in *;
    try destruct (Nat.eqb_spec r b) as [-> | _]; lia.
Qed.

Lemma absorb_numbers b s st :
  is_number (shockAbsorbed (heap (absorb b s st) b)) /\
  is_number (shockAbsorbed (heap (absorb b s st) (parent (heap st b)))) /\
  (forall r, is_number (shockAbsorbed (heap st r)) ->
             is_number (shockAbsorbed (heap (absorb b s st) r))).
Proof.
  assert (Hp : parent (heap (add_shock b s st) b) = parent (heap st b)).
  { rewrite add_shock_heap, Nat.eqb_refl. reflexivity. }
  repeat split; intros; rewrite absorb_accumulate; unfold accumulate; cbv zeta.
  - apply add_shock_number. left. apply add_shock_number. now right.
  - apply add_shock_number. right. now rewrite Hp.
  - apply add_shock_number. left. apply add_shock_number. now left.
Qed.

Lemma collisionStart_pair_monotone st p :
  (forall r, 0 <= total_of (shockAbsorbed (heap st r))) ->
  forall r, total_of (shockAbsorbed (heap st r))
            <= total_of (shockAbsorbed (heap (state_of (collisionStart_pair st p)) r)).
Proof.
  intros Hpos r. unfold collisionStart_pair.
  destruct (shock st p) as [s | ] eqn:Hs; cbn [state_of]; [ | lia ].
  pose proof (shock_nonneg st p s Hs) as Hs0.
  pose proof (absorb_monotone (bodyA p) s st Hs0 Hpos) as H1.
  assert (Hpos1 : forall r', 0 <= total_of (shockAbsorbed (heap (absorb (bodyA p) s st) r'))).
  { intros r'. specialize (H1 r'). specialize (Hpos r'). lia. }
  pose proof (absorb_monotone (bodyB p) s _ Hs0 Hpos1 r) as H2.
  specialize (H1 r). lia.
Qed.

(** X3: damage is never taken back.  When no counter is negative, the total
    every body holds after the handler (reading an unset field as 0) is at
    least the total it held before, for any pair list and however the
    handler ends. *)
Theorem shockAbsorbed_never_decreases (pairs : list Pair) (st : State) :
  (forall r, 0 <= total_of (shockAbsorbed (heap st r))) ->
  forall r, total_of (shockAbsorbed (heap st r))
            <= total_of (shockAbsorbed (heap (state_of (collisionStart pairs st)) r)).
Proof.
  revert st. induction pairs as [ | p rest IH]; intros st Hpos r.
  - cbn. lia.
  - cbn [collisionStart].
    pose proof (collisionStart_pair_monotone st p Hpos) as Hstep.
    destruct (collisionStart_pair st p) as [st1 | st1]; cbn [state_of] in *.
    + assert (Hpos1 : forall r', 0 <= total_of (shockAbsorbed (heap st1 r'))).
      { intros r'. specialize (Hstep r'). specialize (Hpos r'). lia. }
      specialize (IH st1 Hpos1 r). specialize (Hstep r). lia.
    + apply Hstep.
Qed.

Lemma shockAbsorbed_never_decreases_witness :
  total_of (shockAbsorbed (heap compound_scene 0%nat))
  <= total_of (shockAbsorbed
                 (heap (state_of (collisionStart [MkPair 1 3; MkPair 1 3]
                                    compound_scene)) 0%nat)).
Proof.
  apply (shockAbsorbed_never_decreases [MkPair 1 3; MkPair 1 3] compound_scene).
  intros r. unfold compound_scene, heap_of. cbn [heap].
  do 5 (destruct r as [ | r]; [cbn; lia | ]). cbn. lia.
Defined.

Lemma collisionStart_pair_numbers st p s :
  shock st p = Some s ->
  let st' := absorb (bodyB p) s (absorb (bodyA p) s st) in
  is_number (shockAbsorbed (heap st' (bodyA p))) /\
  is_number (shockAbsorbed (heap st' (parent (heap st (bodyA p))))) /\
  is_number (shockAbsorbed (heap st' (bodyB p))) /\
  is_number (shockAbsorbed (heap st' (parent (heap st (bodyB p))))) /\
  (forall r, is_number (shockAbsorbed (heap st r)) ->
             is_number (shockAbsorbed (heap st' r))).
Proof.
  intros _. cbv zeta.
  destruct (absorb_numbers (bodyA p) s st) as (Ha & Hpa & Hkeep1).
  destruct (absorb_numbers (bodyB p) s (absorb (bodyA p) s st))
    as (Hb & Hpb & Hkeep2).
  destruct (absorb_frame (bodyA p) s st) as (_ & _ & Hs1 & _).
  destruct (Hs1 (bodyB p)) as (_ & _ & _ & _ & _ & _ & _ & _ & Hp).
  rewrite Hp in Hpb.
  repeat split; auto.
Qed.

(** X4: after the handler has run to its end, [shockAbsorbed] is a number
    on both bodies of every pair and on their parents (the field is
    initialised on first touch, and no addition yields [NaN]); a field that
    held a number before still holds one. *)
Theorem collisionStart_leaves_numbers (pairs : list Pair) (st st' : State) :
  collisionStart pairs st = Normal st' ->
  (forall p, In p pairs ->
     is_number (shockAbsorbed (heap st' (bodyA p))) /\
     is_number (shockAbsorbed (heap st' (parent (heap st (bodyA p))))) /\
     is_number (shockAbsorbed (heap st' (bodyB p))) /\
     is_number (shockAbsorbed (heap st' (parent (heap st (bodyB p)))))) /\
  (forall r, is_number (shockAbsorbed (heap st r)) ->
             is_number (shockAbsorbed (heap st' r))).
Proof.
  revert st. induction pairs as [ | p rest IH]; intros st Hrun.
  - cbn in Hrun. injection Hrun as <-. split; [intros p [] | auto].
  - cbn [collisionStart] in Hrun.
    destruct (collisionStart_pair_frame st p) as (_ & _ & Hh & _).
    unfold collisionStart_pair in Hrun, Hh.
    destruct (shock st p) as [s | ] eqn:Hs; [ | discriminate ].
    cbn [state_of] in Hh.
    destruct (collisionStart_pair_numbers st p s Hs) as (Ha & Hpa & Hb & Hpb & Hkeep).
    destruct (IH _ Hrun) as (Hrest & Hkeep').
    split.
    + intros q [<- | Hq].
      * repeat split; now apply Hkeep'.
      * destruct (Hrest q Hq) as (Q1 & Q2 & Q3 & Q4).
        destruct (Hh (bodyA q)) as (_ & _ & _ & _ & _ & _ & _ & _ & HpA).
        destruct (Hh (bodyB q)) as (_ & _ & _ & _ & _ & _ & _ & _ & HpB).
        rewrite HpA in Q2. rewrite HpB in Q4. repeat split; assumption.
    + intros r Hr. apply Hkeep'. now apply Hkeep.
Qed.

Lemma collisionStart_leaves_numbers_witness :
  is_number (shockAbsorbed
               (heap (state_of (collisionStart [MkPair 1 3] compound_scene)) 2%nat)).
Proof.
  destruct (collisionStart_leaves_numbers [MkPair 1 3] compound_scene _ eq_refl)
    as (H & _).
  exact (proj2 (proj2 (proj2 (H (MkPair 1 3) (or_introl eq_refl))))).
Defined.

(** ** collisionStart: the shock of a pair *)

Lemma floor_magnitude_sub_comm (u v : Vector) :
  Vector.floor_magnitude (Vector.sub u v) = Vector.floor_magnitude (Vector.sub v u).
Proof.
  unfold Vector.floor_magnitude. apply f_equal, Qfloor_comp.
  unfold Vector.magnitudeSquared. simpl. ring.
Qed.

(** X5: the shock does not depend on which body of the contact the engine
    calls [bodyA]: the pair and the swapped pair have the same shock, and
    raise in the same cases. *)
Theorem shock_symmetric (st : State) (a b : BodyRef) :
  shock st (MkPair a b) = shock st (MkPair b a).
Proof.
  unfold shock. cbn [bodyA bodyB].
  destruct (momentum st a) as [ma | ], (momentum st b) as [mb | ]; try reflexivity.
  f_equal. apply floor_magnitude_sub_comm.
Qed.

Lemma floor_magnitude_zero (v : Vector) :
  Vector.equiv v Vector.zero -> Vector.floor_magnitude v = 0.
Proof.
  intros H. now rewrite (floor_magnitude_equiv v Vector.zero H).
Qed.

(** X6: two bodies with the same momentum give shock 0; in particular two
    static bodies do, whatever their [velocityPrev] vectors hold. *)
Theorem equal_momenta_give_no_shock (st : State) (p : Pair) :
  (forall ma mb,
      momentum st (bodyA p) = Some ma -> momentum st (bodyB p) = Some mb ->
      Vector.equiv ma mb -> shock st p = Some 0) /\
  (isStatic (heap st (bodyA p)) = true -> isStatic (heap st (bodyB p)) = true ->
   pair_ready st p -> shock st p = Some 0).
Proof.
  assert (Hgen : forall ma mb,
      momentum st (bodyA p) = Some ma -> momentum st (bodyB p) = Some mb ->
      Vector.equiv ma mb -> shock st p = Some 0).
  { intros ma mb Ha Hb [Hx Hy]. unfold shock. rewrite Ha, Hb. f_equal.
    apply floor_magnitude_zero. split; simpl; rewrite ?Hx, ?Hy; ring. }
  split; [exact Hgen | ].
  intros HsA HsB [Ha Hb].
  destruct (velocityPrev (heap st (bodyA p))) as [va | ] eqn:Eva; [ | congruence ].
  destruct (velocityPrev (heap st (bodyB p))) as [vb | ] eqn:Evb; [ | congruence ].
  apply (Hgen _ _ (momentum_static st _ va HsA Eva) (momentum_static st _ vb HsB Evb)).
  split; simpl; ring.
Qed.

(** ** collisionStart: the same contact again and again *)


Lemma pair_own_parent_value st p b s :
  own_parent_in_pair st p b ->
  shockAbsorbed (heap (absorb (bodyB p) s (absorb (bodyA p) s st)) b)
  = Number (2 * (total_of (shockAbsorbed (heap st b)) + s)).
Proof.
  intros (Hx & Hab & Hself & HpA & HpB).
  set (st1 := absorb (bodyA p) s st).
  destruct (absorb_frame (bodyA p) s st) as (_ & _ & Hs1 & Ho1).
  fold st1 in Hs1, Ho1.
  destruct (absorb_frame (bodyB p) s st1) as (_ & _ & _ & Ho2).
  assert (HpB1 : parent (heap st1 (bodyB p)) = parent (heap st (bodyB p)))
    by apply (Hs1 (bodyB p)).
  destruct Hx as [-> | ->].
  - rewrite Ho2.
    + now apply absorb_self.
    + exact Hab.
    + rewrite HpB1. intros E. symmetry in E. apply HpB in E. congruence.
  - assert (Hb1 : heap st1 (bodyB p) = heap st (bodyB p)).
    { apply Ho1; [congruence | ].
      intros E. symmetry in E. apply HpA in E. congruence. }
    rewrite <- Hb1. apply absorb_self. now rewrite Hb1.
Qed.

(** What one more run of the handler on the same pair starts from. *)
Lemma collisions_step (n : nat) (p : Pair) (st : State) (s : Z) :
  shock st p = Some s ->
  let st1 := absorb (bodyB p) s (absorb (bodyA p) s st) in
  collisions (S n) [p] st = collisions n [p] st1 /\
  shock st1 p = Some s /\
  (forall r, same_but_shock (heap st r) (heap st1 r)).
Proof.
  intros Hs. cbv zeta.
  pose proof (collisionStart_single st p s Hs) as Hrun.
  destruct (collisionStart_removes_nothing_aux [p] st) as (Hv & Hh).
  rewrite Hrun in Hv, Hh. cbn [state_of] in Hv, Hh.
  split; [ | split ].
  - cbn [collisions]. now rewrite Hrun.
  - now rewrite (shock_frame st _ p Hv Hh).
  - exact Hh.
Qed.



Lemma triangular_step (n : Z) :
  0 <= n -> (n + 1) * (n + 1 + 1) / 2 = n * (n + 1) / 2 + (n + 1).
Proof.
  intros Hn.
  replace ((n + 1) * (n + 1 + 1)) with (n * (n + 1) + (n + 1) * 2) by ring.
  now rewrite Z.div_add by lia.
Qed.

(** X8: for a child part of a compound body the growth is quadratic in the
    parent.  When the two bodies of the pair and their two parents are four
    different objects, [n] runs of the handler on the same contact with
    floored shock [s] take each part from [t] to [t + n * s], and its parent
    from [u] to [u + n * t + s * (n * (n + 1) / 2)]. *)
Theorem repeated_collisions_compound (n : nat) (st : State) (p : Pair) (s : Z) :
  shock st p = Some s ->
  separate st p ->
  let a := bodyA p in
  let b := bodyB p in
  let pa := parent (heap st a) in
  let pb := parent (heap st b) in
  let N := Z.of_nat n in
  exists st',
    collisions n [p] st = Normal st' /\
    total_of (shockAbsorbed (heap st' a))
    = total_of (shockAbsorbed (heap st a)) + N * s /\
    total_of (shockAbsorbed (heap st' pa))
    = total_of (shockAbsorbed (heap st pa))
      + N * total_of (shockAbsorbed (heap st a)) + s * (N * (N + 1) / 2) /\
    total_of (shockAbsorbed (heap st' b))
    = total_of (shockAbsorbed (heap st b)) + N * s /\
    total_of (shockAbsorbed (heap st' pb))
    = total_of (shockAbsorbed (heap st pb))
      + N * total_of (shockAbsorbed (heap st b)) + s * (N * (N + 1) / 2).
Proof.
  cbv zeta. revert st. induction n as [ | n IH]; intros st Hs Hsep.
  - exists st. split; [reflexivity | ].
    change (Z.of_nat 0) with 0. change (0 * (0 + 1) / 2) with 0.
    repeat split; lia.
  - destruct (collisions_step n p st s Hs) as (Hrun & Hs1 & Hh).
    destruct (IH _ Hs1 (separate_frame st _ p Hh Hsep))
      as (st' & Hrun' & Ka & Kpa & Kb & Kpb).
    destruct (pair_separate_values st p s Hsep) as (H1 & H2 & H3 & H4).
    destruct (Hh (bodyA p)) as (_ & _ & _ & _ & _ & _ & _ & _ & HpA).
    destruct (Hh (bodyB p)) as (_ & _ & _ & _ & _ & _ & _ & _ & HpB).
    rewrite HpA in Kpa. rewrite HpB in Kpb.
    rewrite H1 in Ka, Kpa. rewrite H2 in Kpa. rewrite H3 in Kb, Kpb. rewrite H4 in Kpb.
    cbn [total_of] in Ka, Kpa, Kb, Kpb.
    exists st'. split; [now rewrite Hrun | ].
    rewrite Nat2Z.inj_succ. unfold Z.succ.
    rewrite triangular_step by lia.
    rewrite Ka, Kpa, Kb, Kpb.
    repeat split; ring.
Qed.

Lemma repeated_collisions_compound_witness :
  exists st',
    collisions 3 [MkPair 1 3] compound_scene = Normal st' /\
    total_of (shockAbsorbed (heap st' 1%nat)) = 0 + 3 * 6 /\
    total_of (shockAbsorbed (heap st' 0%nat)) = 0 + 3 * 0 + 6 * (3 * (3 + 1) / 2).
Proof.
  destruct (repeated_collisions_compound 3 compound_scene (MkPair 1 3) 6 eq_refl)
    as (st' & Hrun & Ha & Hpa & _).
  - repeat split; discriminate.
  - exists st'. repeat split; assumption.
Defined.

(** ** afterUpdate: what stays *)

Lemma label_not_Block (l : string) : l <> "Block"%string -> String.eqb l "Block" = false.
Proof. intros Hne. now apply String.eqb_neq. Qed.

(** X13: the post-step pass removes nothing but blocks over the threshold.
    A body that is not labeled "Block", or whose [shockAbsorbed] is not a
    number above 500 (500 itself included), occurs in the world after the
    pass exactly as often as before. *)
Theorem afterUpdate_keeps_the_rest (st : State) (r : BodyRef) :
  label (heap st r) <> "Block"%string
  \/ (forall t, shockAbsorbed (heap st r) = Number t -> t <= 500) ->
  occurrences r (world (afterUpdate st)) = occurrences r (world st) /\
  (In r (Composite.allBodies (world (afterUpdate st)))
   <-> In r (Composite.allBodies (world st))).
Proof.
  intros Hr.
  assert (Hocc : occurrences r (world (afterUpdate st)) = occurrences r (world st)).
  { unfold afterUpdate. cbv zeta. apply afterUpdate_fold_keeps.
    destruct Hr as [Hl | Ht].
    - now rewrite (label_not_Block _ Hl).
    - apply andb_false_intro2.
      destruct (shockAbsorbed (heap st r)) as [ | | t]; try reflexivity.
      cbn [js_gt]. apply Z.ltb_ge. now apply Ht. }
  split; [exact Hocc | ].
  now rewrite !occurrences_In, Hocc.
Qed.

Lemma afterUpdate_keeps_the_rest_witness :
  In 0%nat (Composite.allBodies (world (afterUpdate threshold_scene))) /\
  In 1%nat (Composite.allBodies (world (afterUpdate threshold_scene))).
Proof.
  split.
  - apply (afterUpdate_keeps_the_rest threshold_scene 0).
    + right. intros t [= <-]. lia.
    + left. reflexivity.
  - apply (afterUpdate_keeps_the_rest threshold_scene 1).
    + left. discriminate.
    + right. left. reflexivity.
Defined.

Lemma afterUpdate_fold_vecs (l : list BodyRef) (st : State) :
  vecs (fold_left afterUpdate_body l st) = vecs st.
Proof.
  revert st. induction l as [ | b l IH]; intros st; [reflexivity | ].
  cbn [fold_left]. rewrite IH. apply afterUpdate_body_spec.
Qed.

Lemma afterUpdate_fold_untouched (l : list BodyRef) (st : State) (r : BodyRef) :
  (forall b, In b l -> (1 < List.length (parts (heap st b)))%nat ->
             ~ In r (parts (heap st b))) ->
  heap (fold_left afterUpdate_body l st) r = heap st r.
Proof.
  revert st. induction l as [ | x l IH]; intros st Hr; [reflexivity | ].
  cbn [fold_left].
  assert (Hx : heap (afterUpdate_body st x) r = heap st r).
  { destruct (afterUpdate_body_spec st x) as (-> & _).
    unfold synced.
    destruct (Nat.ltb_spec 1 (List.length (parts (heap st x)))) as [Hlt | _];
      [ | reflexivity ].
    apply (sync_parts_spec x (parts (heap st x)) st).
    apply Hr; [now left | exact Hlt]. }
  rewrite IH; [exact Hx | ].
  intros b Hb.
  destruct (afterUpdate_body_same_but_angle st x b)
    as (_ & _ & _ & _ & _ & _ & _ & -> & _).
  apply Hr. now right.
Qed.

(** X14: the post-step pass writes angles and nothing else.  Every body
    keeps every field but [angle], the vectors are untouched, no body enters
    the world, and a body that is not a part of a compound body of the world
    is not written at all. *)
Theorem afterUpdate_only_turns_parts (st : State) :
  vecs (afterUpdate st) = vecs st /\
  (forall r, same_but_angle (heap st r) (heap (afterUpdate st) r)) /\
  (forall r, (occurrences r (world (afterUpdate st)) <= occurrences r (world st))%nat) /\
  (forall r,
      (forall b, In b (Composite.allBodies (world st)) ->
                 (1 < List.length (parts (heap st b)))%nat ->
                 ~ In r (parts (heap st b))) ->
      heap (afterUpdate st) r = heap st r).
Proof.
  unfold afterUpdate. cbv zeta. split; [ | split; [ | split ] ].
  - apply afterUpdate_fold_vecs.
  - intros r. apply afterUpdate_fold_same_but_angle.
  - intros r. apply afterUpdate_fold_world_le.
  - intros r Hr. now apply afterUpdate_fold_untouched.
Qed.

(** ** collisionStart, then afterUpdate *)

(** X9: for a plain block the threshold is met at half its face value.  A
    body of the world labeled "Block" that is its own parent and holds
    total [t] is gone after one contact of floored shock [s] and the
    post-step pass exactly when [2 * (t + s) > 500]: from an untouched
    block, when [s > 250]. *)
Theorem plain_block_breaks_at_half (st : State) (p : Pair) (b : BodyRef) (s : Z) :
  shock st p = Some s ->
  own_parent_in_pair st p b ->
  label (heap st b) = "Block"%string ->
  In b (Composite.allBodies (world st)) ->
  exists st1,
    collisionStart [p] st = Normal st1 /\
    (500 < 2 * (total_of (shockAbsorbed (heap st b)) + s) ->
     ~ In b (Composite.allBodies (world (afterUpdate st1)))) /\
    (2 * (total_of (shockAbsorbed (heap st b)) + s) <= 500 ->
     In b (Composite.allBodies (world (afterUpdate st1)))).
Proof.
  intros Hs Hown Hl Hin.
  set (st1 := absorb (bodyB p) s (absorb (bodyA p) s st)).
  pose proof (collisionStart_single st p s Hs) as Hrun. fold st1 in Hrun.
  pose proof (pair_own_parent_value st p b s Hown) as Hval. fold st1 in Hval.
  destruct (collisionStart_pair_frame st p) as (Hw & _ & Hh & _).
  rewrite (collisionStart_pair_normal st p s Hs) in Hw, Hh.
  cbn [state_of] in Hw, Hh. fold st1 in Hw, Hh.
  assert (Hl1 : label (heap st1 b) = "Block"%string)
    by (destruct (Hh b) as (-> & _); exact Hl).
  exists st1. split; [exact Hrun | split].
  - intros Hover. apply occurrences_not_In.
    unfold afterUpdate. cbv zeta. apply afterUpdate_fold_removes.
    + exact Hl1.
    + rewrite Hval. cbn [js_gt]. now apply Z.ltb_lt.
    + apply Nat.le_refl.
  - intros Hunder. apply occurrences_In.
    unfold afterUpdate. cbv zeta. rewrite afterUpdate_fold_keeps.
    + rewrite Hw. now apply occurrences_In.
    + apply andb_false_intro2. rewrite Hval. cbn [js_gt]. now apply Z.ltb_ge.
Qed.

Lemma plain_block_breaks_at_half_witness :
  shock heavy_scene (MkPair 0 1) = Some 300 /\
  exists st1,
    collisionStart [MkPair 0 1] heavy_scene = Normal st1 /\
    ~ In 0%nat (Composite.allBodies (world (afterUpdate st1))).
Proof.
  split; [reflexivity | ].
  destruct (plain_block_breaks_at_half heavy_scene (MkPair 0 1) 0%nat 300)
    as (st1 & Hrun & Hover & _).
  - reflexivity.
  - repeat split; try discriminate. now left.
  - reflexivity.
  - left. reflexivity.
  - exists st1. split; [exact Hrun | ]. apply Hover. cbn. lia.
Defined.

(** ** afterUpdate, twice *)

Lemma same_but_angle_eq (b b' : Body) :
  same_but_angle b b' -> angle b' = angle b -> b' = b.
Proof.
  destruct b, b'. unfold same_but_angle. cbn.
  intros (-> & -> & -> & -> & -> & -> & -> & -> & ->) ->. reflexivity.
Qed.

(** A body whose parts already share its angle is left as it is. *)
Lemma synced_stable (st : State) (x : BodyRef) :
  ((1 < List.length (parts (heap st x)))%nat ->
   forall q, In q (parts (heap st x)) -> angle (heap st q) = angle (heap st x)) ->
  forall r, heap (synced st x) r = heap st r.
Proof.
  intros Hshare r.
  destruct (synced_spec st x) as (_ & _ & Hs & Hout & _ & Hin).
  destruct (in_dec Nat.eq_dec r (parts (heap st x))) as [Hr | Hr];
    [ | now apply Hout ].
  destruct (Nat.ltb_spec 1 (List.length (parts (heap st x)))) as [Hlt | Hge].
  - apply same_but_angle_eq; [apply Hs | ].
    rewrite (Hin Hlt r Hr). symmetry. now apply Hshare.
  - unfold synced.
    destruct (Nat.ltb_spec 1 (List.length (parts (heap st x)))); [lia | reflexivity].
Qed.

Lemma settled_ext (st st' : State) (x : BodyRef) :
  (forall r, heap st' r = heap st r) -> settled st x -> settled st' x.
Proof.
  intros He [Hc Ha]. unfold settled. rewrite !He. split; [exact Hc | ].
  intros Hlt q Hq. rewrite !He. now apply Ha.
Qed.

Lemma afterUpdate_fold_stable (l : list BodyRef) (st : State) :
  (forall x, In x l -> settled st x) ->
  world (fold_left afterUpdate_body l st) = world st /\
  forall r, heap (fold_left afterUpdate_body l st) r = heap st r.
Proof.
  revert st. induction l as [ | x l IH]; intros st Hall; [now split | ].
  cbn [fold_left].
  destruct (Hall x (or_introl eq_refl)) as [Hc Ha].
  destruct (afterUpdate_body_spec st x) as (Hh & _ & Hw).
  rewrite Hc in Hw.
  assert (He : forall r, heap (afterUpdate_body st x) r = heap st r).
  { intros r. rewrite Hh. now apply synced_stable. }
  destruct (IH (afterUpdate_body st x)) as (Hw' & Hh').
  { intros y Hy. apply (settled_ext st _ y He). apply Hall. now right. }
  split; [congruence | ].
  intros r. now rewrite Hh', He.
Qed.

(** X15: a second post-step pass right after the first finds nothing to do.
    In a world whose bodies own their parts, running the handler on its own
    result changes neither the world nor any body. *)
Theorem afterUpdate_idempotent (st : State) :
  parts_owned st ->
  world (afterUpdate (afterUpdate st)) = world (afterUpdate st) /\
  vecs (afterUpdate (afterUpdate st)) = vecs (afterUpdate st) /\
  forall r, heap (afterUpdate (afterUpdate st)) r = heap (afterUpdate st) r.
Proof.
  intros Hown.
  set (st1 := afterUpdate st).
  assert (Hs : forall r, same_but_angle (heap st r) (heap st1 r))
    by (intros r; apply afterUpdate_fold_same_but_angle).
  assert (Hsettled : forall x, In x (Composite.allBodies (world st1)) -> settled st1 x).
  { intros x Hx1.
    assert (Hx : In x (Composite.allBodies (world st))).
    { apply occurrences_In. apply occurrences_In in Hx1.
      pose proof (afterUpdate_fold_world_le (Composite.allBodies (world st)) st x).
      fold (afterUpdate st) in H. fold st1 in H. lia. }
    destruct (Hs x) as (Hl & _ & _ & _ & _ & _ & Hsa & Hparts & _).
    split.
    - rewrite Hl, Hsa.
      destruct (String.eqb (label (heap st x)) "Block"
                && js_gt (shockAbsorbed (heap st x)) 500) eqn:Hc; [ | reflexivity ].
      exfalso. apply andb_prop in Hc. destruct Hc as [Hc1 Hc2].
      apply String.eqb_eq in Hc1.
      apply occurrences_In in Hx1.
      pose proof (afterUpdate_fold_removes (Composite.allBodies (world st)) st x
                    Hc1 Hc2 (Nat.le_refl _)) as Hgone.
      fold (afterUpdate st) in Hgone. fold st1 in Hgone. lia.
    - rewrite Hparts. intros Hlt q Hq.
      destruct (afterUpdate_fold_angles (Composite.allBodies (world st)) st x)
        as (Hang & Hshare); [exact Hown | now apply Hown | exact Hlt | ].
      fold (afterUpdate st) in Hang, Hshare. fold st1 in Hang, Hshare.
      rewrite Hang. apply Hshare; [now left | exact Hq]. }
  destruct (afterUpdate_fold_stable (Composite.allBodies (world st1)) st1 Hsettled)
    as (Hw & Hh).
  split; [exact Hw | split; [ | exact Hh ] ].
  apply afterUpdate_fold_vecs.
Qed.

Lemma afterUpdate_idempotent_witness :
  angle (heap (afterUpdate (afterUpdate tilted_scene)) 2%nat) = (1 # 2)%Q.
Proof.
  destruct (afterUpdate_idempotent tilted_scene) as (_ & _ & Hh).
  - intros b [<- | []]. split; [reflexivity | ].
    intros q [<- | [<- | [<- | []]]]; reflexivity.
  - rewrite Hh. reflexivity.
Defined.

(** ** beforeUpdate: what it leaves alone *)

Lemma beforeUpdate_parts_world (ps : list BodyRef) (st : State) (r : BodyRef) :
  let st' := fold_left beforeUpdate_part ps st in
  (occurrences r (world st') <= occurrences r (world st))%nat /\
  (asleep_projectile st r = false ->
   occurrences r (world st') = occurrences r (world st)).
Proof.
  cbv zeta. revert st. induction ps as [ | x ps IH]; intros st.
  - cbn. split; [apply Nat.le_refl | reflexivity].
  - cbn [fold_left].
    destruct (beforeUpdate_part_spec st x) as (_ & Hs & _ & Hrem & Hkeep).
    destruct (IH (beforeUpdate_part st x)) as (Hle & Heq).
    rewrite (asleep_projectile_frame st _ r (Hs r)) in Heq.
    destruct (asleep_projectile st x) eqn:Ex.
    + destruct (Hrem eq_refl) as (_ & Hw). rewrite Hw in Hle, Heq.
      split.
      * eapply Nat.le_trans; [exact Hle | apply occurrences_remove_le].
      * intros Hr. rewrite (Heq Hr). apply occurrences_remove_other.
        intros ->. congruence.
    + destruct (Hkeep eq_refl) as (Hw & _). rewrite Hw in Hle, Heq.
      split; assumption.
Qed.

Lemma beforeUpdate_bodies_frame (l : list BodyRef) (st : State) :
  let st' := fold_left beforeUpdate_body l st in
  vecs st' = vecs st /\
  (forall r, same_but_velocityPrev (heap st r) (heap st' r)) /\
  (forall r, (occurrences r (world st') <= occurrences r (world st))%nat) /\
  (forall r, asleep_projectile st r = false ->
             occurrences r (world st') = occurrences r (world st)) /\
  (forall r, (forall b, In b l -> ~ In r (parts (heap st b))) ->
             heap st' r = heap st r).
Proof.
  cbv zeta. revert st. induction l as [ | x l IH]; intros st.
  - cbn. repeat split; auto.
  - cbn [fold_left]. unfold beforeUpdate_body at 2 4 6 8 10.
    destruct (beforeUpdate_parts_frame (parts (heap st x)) st) as (Hv & Hs & Ho).
    pose proof (beforeUpdate_parts_world (parts (heap st x)) st) as Hw.
    set (st1 := fold_left beforeUpdate_part (parts (heap st x)) st) in *.
    destruct (IH st1) as (Hv' & Hs' & Hle' & Heq' & Ho').
    split; [congruence | split; [ | split; [ | split ] ] ].
    + intros r. eapply same_but_velocityPrev_trans; [apply Hs | apply Hs'].
    + intros r. eapply Nat.le_trans; [apply Hle' | apply (Hw r)].
    + intros r Hr. rewrite Heq'.
      * now apply (Hw r).
      * now rewrite (asleep_projectile_frame st st1 r (Hs r)).
    + intros r Hr. rewrite Ho'.
      * apply Ho. apply Hr. now left.
      * intros b Hb.
        destruct (Hs b) as (_ & _ & _ & _ & _ & _ & _ & -> & _).
        apply Hr. now right.
Qed.

Lemma beforeUpdate_only_snapshots_and_culls_aux (st : State) :
  vecs (beforeUpdate st) = vecs st /\
  (forall r, same_but_velocityPrev (heap st r) (heap (beforeUpdate st) r)).
Proof.
  unfold beforeUpdate. cbv zeta.
  destruct (beforeUpdate_bodies_frame (Composite.allBodies (world st)) st)
    as (Hv & Hs & _).
  now split.
Qed.

(** X11: the pre-step pass writes [velocityPrev] and removes sleeping
    projectiles, nothing else.  Every body keeps every other field, the
    vectors are untouched, no body enters the world, a body that is not a
    sleeping projectile occurs in the world as often as before, and a body
    that is no part of a body of the world is not written at all. *)
Theorem beforeUpdate_only_snapshots_and_culls (st : State) :
  vecs (beforeUpdate st) = vecs st /\
  (forall r, same_but_velocityPrev (heap st r) (heap (beforeUpdate st) r)) /\
  (forall r, (occurrences r (world (beforeUpdate st)) <= occurrences r (world st))%nat) /\
  (forall r, asleep_projectile st r = false ->
             occurrences r (world (beforeUpdate st)) = occurrences r (world st)) /\
  (forall r, (forall b, In b (Composite.allBodies (world st)) ->
                        ~ In r (parts (heap st b))) ->
             heap (beforeUpdate st) r = heap st r).
Proof.
  unfold beforeUpdate. cbv zeta.
  apply (beforeUpdate_bodies_frame (Composite.allBodies (world st)) st).
Qed.

(** ** beforeUpdate, then collisionStart *)

Lemma beforeUpdate_velocityPrev (st : State) (r : BodyRef) :
  visited_awake st r ->
  velocityPrev (heap (beforeUpdate st) r) = Some (velocity (heap st r)).
Proof.
  intros (Hawake & b & Hb & Hr).
  unfold beforeUpdate. cbv zeta. apply beforeUpdate_bodies_snapshot.
  - exact Hawake.
  - left. exists b. now split.
Qed.

Lemma beforeUpdate_momentum (st : State) (r : BodyRef) :
  visited_awake st r ->
  momentum (beforeUpdate st) r
  = Some (Vector.mult (read_velocity st r) (effective_mass st r)).
Proof.
  intros Hr. unfold momentum, read_velocity, effective_mass.
  rewrite (beforeUpdate_velocityPrev st r Hr).
  destruct (beforeUpdate_only_snapshots_and_culls_aux st) as (Hv & Hs).
  destruct (Hs r) as (_ & -> & _ & -> & _).
  now rewrite Hv.
Qed.

(** X10: the pre-step pass is what makes the collision handler safe.  When
    both bodies of every pair are parts of bodies of the world and not
    sleeping projectiles, the collision handler run on the state the
    pre-step pass leaves ends normally, and the shock of each pair is the
    floored magnitude of the difference of [velocity * mass] (mass 0 for a
    static body) taken on the velocities of before the pass. *)
Theorem collisionStart_after_beforeUpdate (pairs : list Pair) (st : State) :
  (forall p, In p pairs ->
             visited_awake st (bodyA p) /\ visited_awake st (bodyB p)) ->
  (exists st', collisionStart pairs (beforeUpdate st) = Normal st') /\
  (forall p, In p pairs ->
     shock (beforeUpdate st) p
     = Some (Vector.floor_magnitude
               (Vector.sub
                  (Vector.mult (read_velocity st (bodyA p)) (effective_mass st (bodyA p)))
                  (Vector.mult (read_velocity st (bodyB p)) (effective_mass st (bodyB p)))))).
Proof.
  intros Hall.
  assert (Hshock : forall p, In p pairs ->
     shock (beforeUpdate st) p
     = Some (Vector.floor_magnitude
               (Vector.sub
                  (Vector.mult (read_velocity st (bodyA p)) (effective_mass st (bodyA p)))
                  (Vector.mult (read_velocity st (bodyB p)) (effective_mass st (bodyB p)))))).
  { intros p Hp. destruct (Hall p Hp) as [Ha Hb]. unfold shock.
    now rewrite (beforeUpdate_momentum st _ Ha), (beforeUpdate_momentum st _ Hb). }
  split; [ | exact Hshock ].
  apply collisionStart_normal_ready. apply Forall_forall.
  intros p Hp. apply shock_defined_iff. eexists. now apply Hshock.
Qed.

Lemma collisionStart_after_beforeUpdate_witness :
  collisionStart [MkPair 0 1] fresh_scene = TypeError fresh_scene /\
  (exists st', collisionStart [MkPair 0 1] (beforeUpdate fresh_scene) = Normal st') /\
  shock (beforeUpdate fresh_scene) (MkPair 0 1) = Some 7.
Proof.
  split; [reflexivity | ].
  destruct (collisionStart_after_beforeUpdate [MkPair 0 1] fresh_scene)
    as (Hrun & Hshock).
  - intros p [<- | []]. split.
    + split; [reflexivity | ]. exists 0%nat. split; left; reflexivity.
    + split; [reflexivity | ]. exists 1%nat.
      split; [right; left; reflexivity | left; reflexivity].
  - split; [exact Hrun | ].
    rewrite (Hshock (MkPair 0 1) (or_introl eq_refl)). reflexivity.
Defined.

Lemma beforeUpdate_snapshot_is_an_alias_witness :
  read_velocityPrev (beforeUpdate fresh_scene) 1 = Some (MkVector 0 4) /\
  read_velocityPrev (write_velocity 1 (MkVector 0 5) (beforeUpdate fresh_scene)) 1
  = Some (MkVector 0 5).
Proof.
  destruct (beforeUpdate_snapshot_is_an_alias fresh_scene 1 1) as (Hsnap & Halias).
  - right. left. reflexivity.
  - left. reflexivity.
  - reflexivity.
  - split; [exact Hsnap | apply Halias].
Defined.

(** ** The canvas and the layout *)

Lemma js_div_gt_true (a b c : Q) :
  (0 <= b)%Q -> js_div_gt a b c = true -> (c * b < a)%Q.
Proof.
  intros Hb. unfold js_div_gt.
  destruct (Qeq_bool b 0) eqn:Eb.
  - apply Qeq_bool_eq in Eb. intros H. apply negb_true_iff in H.
    assert (Ha : ~ (a <= 0)%Q)
      by (intros Hle; apply Qle_bool_iff in Hle; congruence).
    rewrite Eb. lra.
  - apply Qeq_bool_neq in Eb. intros H. apply negb_true_iff in H.
    assert (Hq : ~ (a / b <= c)%Q)
      by (intros Hle; apply Qle_bool_iff in Hle; congruence).
    assert (Hpos : (0 < b)%Q) by lra.
    assert (E : (a == (a / b) * b)%Q) by (field; exact Eb).
    apply Qnot_le_lt in Hq. nra.
Qed.

Lemma js_div_gt_false (a b c : Q) :
  (0 <= a)%Q -> (0 <= b)%Q -> (0 <= c)%Q -> js_div_gt a b c = false ->
  (a <= c * b)%Q.
Proof.
  intros Ha Hb Hc. unfold js_div_gt.
  destruct (Qeq_bool b 0) eqn:Eb.
  - apply Qeq_bool_eq in Eb. intros H. apply negb_false_iff in H.
    apply Qle_bool_iff in H. rewrite Eb. lra.
  - apply Qeq_bool_neq in Eb. intros H. apply negb_false_iff in H.
    apply Qle_bool_iff in H.
    assert (Hpos : (0 < b)%Q) by lra.
    assert (E : (a == (a / b) * b)%Q) by (field; exact Eb).
    nra.
Qed.

(** X16: the canvas is the largest 2:1 rectangle that fits the page.  For a
    page at least 16 pixels high and of non-negative width, the computed
    size keeps [width : height = WIDTH_RATIO : HEIGHT_RATIO], exceeds
    neither the page width nor the page height less 16, and fills one of
    the two. *)
Theorem createRenderer_size_fits (clientWidth innerHeight : Q) :
  (0 <= clientWidth)%Q ->
  (16 <= innerHeight)%Q ->
  let w := fst (createRenderer_size clientWidth innerHeight) in
  let h := snd (createRenderer_size clientWidth innerHeight) in
  (w * HEIGHT_RATIO == h * WIDTH_RATIO)%Q /\
  (0 <= w)%Q /\ (0 <= h)%Q /\
  (w <= clientWidth)%Q /\
  (h <= innerHeight - 16)%Q /\
  ((w == clientWidth)%Q \/ (h == innerHeight - 16)%Q).
Proof.
  intros Hw Hh. cbv zeta. unfold createRenderer_size. cbv zeta.
  assert (Hr : (WIDTH_RATIO / HEIGHT_RATIO == 2)%Q) by reflexivity.
  assert (Hr0 : (0 <= WIDTH_RATIO / HEIGHT_RATIO)%Q) by (rewrite Hr; lra).
  assert (Hp : (0 <= innerHeight - 16)%Q) by lra.
  destruct (js_div_gt clientWidth (innerHeight - 16)%Q (WIDTH_RATIO / HEIGHT_RATIO)%Q)
    eqn:E; cbn [fst snd].
  - apply (js_div_gt_true _ _ _ Hp) in E. rewrite Hr in E.
    unfold WIDTH_RATIO, HEIGHT_RATIO.
    assert (E2 : (2 * (innerHeight - 16) / 1 == 2 * (innerHeight - 16))%Q)
      by (field).
    rewrite E2. repeat split; lra.
  - apply (js_div_gt_false _ _ _ Hw Hp Hr0) in E. rewrite Hr in E.
    unfold WIDTH_RATIO, HEIGHT_RATIO.
    assert (E2 : (1 * clientWidth / 2 == clientWidth / 2)%Q) by (field).
    rewrite E2.
    assert (E3 : (clientWidth == (clientWidth / 2) * 2)%Q) by (field).
    repeat split; lra.
Qed.

Lemma createRenderer_size_fits_witness :
  createRenderer_size 1920 (1080 + 16)%Q = (1920%Q, (1 * 1920 / 2)%Q) /\
  (snd (createRenderer_size 1920 (1080 + 16)%Q) <= 1080 + 16 - 16)%Q.
Proof.
  split; [reflexivity | ].
  apply (createRenderer_size_fits 1920 (1080 + 16)%Q); [lra | lra].
Defined.

(** X17: the floor lies where the constants say.  For a positive block
    size the top of the floor rectangle is at [FLOOR_HEIGHT], its centre
    line is the bottom edge of the world, it spans the world from side to
    side, and the slingshot anchor is inside the world, above the floor. *)
Theorem floor_layout (BLOCK_SIZE : Q) :
  (0 < BLOCK_SIZE)%Q ->
  (top_edge (floor BLOCK_SIZE) == FLOOR_HEIGHT BLOCK_SIZE)%Q /\
  (centre_y (floor BLOCK_SIZE) == HEIGHT_RATIO * WORLD_SCALE BLOCK_SIZE)%Q /\
  (left_edge (floor BLOCK_SIZE) == 0)%Q /\
  (right_edge (floor BLOCK_SIZE) == WIDTH_RATIO * WORLD_SCALE BLOCK_SIZE)%Q /\
  (0 < fst (slingShot_anchor BLOCK_SIZE) < WIDTH_RATIO * WORLD_SCALE BLOCK_SIZE)%Q /\
  (0 < snd (slingShot_anchor BLOCK_SIZE) < FLOOR_HEIGHT BLOCK_SIZE)%Q.
Proof.
  intros Hb.
  unfold top_edge, left_edge, right_edge, floor, slingShot_anchor, FLOOR_HEIGHT, WORLD_SCALE,
    WIDTH_RATIO, HEIGHT_RATIO.
  cbn [centre_x centre_y width height fst snd].
  assert (E8 : (2 * (30 * BLOCK_SIZE) / 8 == (15 # 2) * BLOCK_SIZE)%Q) by field.
  assert (E3 : (1 * 2 * (30 * BLOCK_SIZE) / 3 == 20 * BLOCK_SIZE)%Q) by field.
  rewrite E8, E3.
  repeat split; try lra; field.
Qed.

Lemma floor_layout_witness :
  (top_edge (floor 40) == 1120)%Q /\ (right_edge (floor 40) == 2400)%Q.
Proof.
  destruct (floor_layout 40) as (Ht & _ & _ & Hr & _); [lra | ].
  split.
  - rewrite Ht. reflexivity.
  - rewrite Hr. reflexivity.
Defined.

(** ** collisionStart: the order of independent contacts *)

Lemma add_shock_agree (S : BodyRef -> Prop) r d st st' :
  agree_on S st st' -> agree_on S (add_shock r d st) (add_shock r d st').
Proof.
  intros Hag x Hx. rewrite !add_shock_heap.
  destruct (Nat.eqb_spec x r) as [-> | _]; [ | now apply Hag ].
  now rewrite (Hag r Hx).
Qed.

Lemma accumulate_agree (S : BodyRef -> Prop) b s st st' :
  S b -> agree_on S st st' ->
  agree_on S (accumulate b s st) (accumulate b s st').
Proof.
  intros Hb Hag. unfold accumulate. cbv zeta.
  pose proof (add_shock_agree S b s st st' Hag) as H1.
  rewrite (H1 b Hb). now apply add_shock_agree.
Qed.

Lemma absorb_agree (S : BodyRef -> Prop) b s st st' :
  S b -> agree_on S st st' -> agree_on S (absorb b s st) (absorb b s st').
Proof.
  intros Hb Hag x Hx. rewrite !absorb_accumulate.
  now apply (accumulate_agree S b s st st' Hb Hag).
Qed.

(** A pair leaves alone what is outside its footprint. *)
Lemma pair_outside_footprint st p s r :
  ~ In r (footprint st p) ->
  heap (absorb (bodyB p) s (absorb (bodyA p) s st)) r = heap st r.
Proof.
  intros Hr.
  destruct (absorb_frame (bodyA p) s st) as (_ & _ & Hs1 & Ho1).
  destruct (absorb_frame (bodyB p) s (absorb (bodyA p) s st)) as (_ & _ & _ & Ho2).
  destruct (Hs1 (bodyB p)) as (_ & _ & _ & _ & _ & _ & _ & _ & Hp).
  rewrite Hp in Ho2. unfold footprint in Hr. cbn [In] in Hr.
  rewrite Ho2, Ho1; auto; intros ->; apply Hr; auto.
Qed.

Lemma footprint_frame st st' p :
  (forall r, same_but_shock (heap st r) (heap st' r)) ->
  footprint st' p = footprint st p.
Proof.
  intros Hh. unfold footprint.
  destruct (Hh (bodyA p)) as (_ & _ & _ & _ & _ & _ & _ & _ & ->).
  destruct (Hh (bodyB p)) as (_ & _ & _ & _ & _ & _ & _ & _ & ->).
  reflexivity.
Qed.

(** One pair after another pair that shares no object with it. *)
Lemma pair_after_disjoint st p q s t r :
  (forall x, In x (footprint st p) -> ~ In x (footprint st q)) ->
  let step u z st0 := absorb (bodyB u) z (absorb (bodyA u) z st0) in
  heap (step q t (step p s st)) r
  = if in_dec Nat.eq_dec r (footprint st q)
    then heap (step q t st) r
    else heap (step p s st) r.
Proof.
  intros Hdis. cbv zeta.
  set (stp := absorb (bodyB p) s (absorb (bodyA p) s st)).
  assert (Hh : forall x, same_but_shock (heap st x) (heap stp x)).
  { intros x. unfold stp.
    eapply same_but_shock_trans; [ | apply absorb_frame ]. apply absorb_frame. }
  destruct (in_dec Nat.eq_dec r (footprint st q)) as [Hr | Hr].
  - assert (Hag : agree_on (fun x => ~ In x (footprint st p)) st stp).
    { intros x Hx. symmetry. now apply pair_outside_footprint. }
    assert (HA : ~ In (bodyA q) (footprint st p))
      by (intros H; apply (Hdis _ H); unfold footprint; cbn; auto).
    assert (HB : ~ In (bodyB q) (footprint st p))
      by (intros H; apply (Hdis _ H); unfold footprint; cbn; auto).
    symmetry.
    apply (absorb_agree _ (bodyB q) t _ _ HB
             (absorb_agree _ (bodyA q) t _ _ HA Hag)).
    intros H. exact (Hdis _ H Hr).
  - apply pair_outside_footprint. now rewrite (footprint_frame st stp q Hh).
Qed.

(** X18: independent contacts can be tallied in either order.  When two
    pairs whose bodies all have a [velocityPrev] share no object (no body
    and no parent of one is a body or a parent of the other), the handler
    leaves the same objects whichever pair comes first in the list. *)
Theorem collisionStart_disjoint_pairs_commute (st : State) (p q : Pair) :
  pair_ready st p -> pair_ready st q ->
  (forall x, In x (footprint st p) -> ~ In x (footprint st q)) ->
  exists st1 st2,
    collisionStart [p; q] st = Normal st1 /\
    collisionStart [q; p] st = Normal st2 /\
    world st1 = world st2 /\ vecs st1 = vecs st2 /\
    forall r, heap st1 r = heap st2 r.
Proof.
  intros Hp Hq Hdis.
  apply shock_defined_iff in Hp. destruct Hp as [s Hs].
  apply shock_defined_iff in Hq. destruct Hq as [t Ht].
  destruct (collisions_step 0 p st s Hs) as (_ & _ & Hhp).
  destruct (collisions_step 0 q st t Ht) as (_ & _ & Hhq).
  set (stp := absorb (bodyB p) s (absorb (bodyA p) s st)) in *.
  set (stq := absorb (bodyB q) t (absorb (bodyA q) t st)) in *.
  assert (Hvp : vecs stp = vecs st).
  { unfold stp. destruct (absorb_frame (bodyA p) s st) as (_ & Hv1 & _).
    destruct (absorb_frame (bodyB p) s (absorb (bodyA p) s st)) as (_ & Hv2 & _).
    congruence. }
  assert (Hvq : vecs stq = vecs st).
  { unfold stq. destruct (absorb_frame (bodyA q) t st) as (_ & Hv1 & _).
    destruct (absorb_frame (bodyB q) t (absorb (bodyA q) t st)) as (_ & Hv2 & _).
    congruence. }
  assert (Htp : shock stp q = Some t) by now rewrite (shock_frame st stp q Hvp Hhp).
  assert (Hsq : shock stq p = Some s) by now rewrite (shock_frame st stq p Hvq Hhq).
  exists (absorb (bodyB q) t (absorb (bodyA q) t stp)),
         (absorb (bodyB p) s (absorb (bodyA p) s stq)).
  split; [ | split; [ | split; [ | split ] ] ].
  - cbn [collisionStart].
    rewrite (collisionStart_pair_normal st p s Hs). fold stp.
    now rewrite (collisionStart_pair_normal stp q t Htp).
  - cbn [collisionStart].
    rewrite (collisionStart_pair_normal st q t Ht). fold stq.
    now rewrite (collisionStart_pair_normal stq p s Hsq).
  - reflexivity.
  - reflexivity.
  - intros r.
    assert (Hdis' : forall x, In x (footprint st q) -> ~ In x (footprint st p))
      by (intros x Hxq Hxp; exact (Hdis x Hxp Hxq)).
    pose proof (pair_after_disjoint st p q s t r Hdis) as H1.
    pose proof (pair_after_disjoint st q p t s r Hdis') as H2.
    cbv zeta in H1, H2. subst stp stq.
    rewrite H1, H2.
    destruct (in_dec Nat.eq_dec r (footprint st q)) as [Hrq | Hrq];
      destruct (in_dec Nat.eq_dec r (footprint st p)) as [Hrp | Hrp].
    + exfalso. exact (Hdis r Hrp Hrq).
    + reflexivity.
    + reflexivity.
    + now rewrite !pair_outside_footprint.
Qed.

Lemma collisionStart_disjoint_pairs_commute_witness :
  exists st1 st2,
    collisionStart [MkPair 0 1; MkPair 2 3] crowd_scene = Normal st1 /\
    collisionStart [MkPair 2 3; MkPair 0 1] crowd_scene = Normal st2 /\
    heap st1 3%nat = heap st2 3%nat.
Proof.
  destruct (collisionStart_disjoint_pairs_commute crowd_scene (MkPair 0 1) (MkPair 2 3))
    as (st1 & st2 & R1 & R2 & _ & _ & Hh).
  - split; discriminate.
  - split; discriminate.
  - intros x Hp Hq. cbn in Hp, Hq.
    repeat (destruct Hp as [<- | Hp]); try contradiction;
      repeat (destruct Hq as [Hq | Hq]); try discriminate; contradiction.
  - exists st1, st2. repeat split; auto.
Defined.

(** ** beforeUpdate, twice *)

Lemma remove_first_absent (r : BodyRef) (l : list BodyRef) :
  count_occ Nat.eq_dec l r = 0%nat -> Composite.remove_first r l = l.
Proof.
  induction l as [ | b l IH]; [reflexivity | ].
  cbn [Composite.remove_first]. intros Hc.
  destruct (Nat.eqb_spec b r) as [-> | Hne].
  - rewrite count_occ_cons_eq in Hc by reflexivity. discriminate.
  - rewrite count_occ_cons_neq in Hc by exact Hne. now rewrite IH.
Qed.

(** Removing a body that is not there changes nothing. *)
Lemma remove_absent (r : BodyRef) (c : Composite) :
  occurrences r c = 0%nat -> Composite.remove c r true = c.
Proof.
  unfold occurrences, Composite.remove.
  induction c as [bodies cs IH] using Composite_nested_ind.
  cbn [Composite.allBodies Composite.removeBody].
  rewrite count_occ_app. intros Hc.
  rewrite remove_first_absent by lia. f_equal.
  assert (Hcs : count_occ Nat.eq_dec (flat_map Composite.allBodies cs) r = 0%nat) by lia.
  clear Hc. induction IH as [ | c cs Hc _ IHcs]; [reflexivity | ].
  cbn [flat_map] in Hcs. rewrite count_occ_app in Hcs.
  cbn [map]. rewrite Hc by lia. now rewrite IHcs by lia.
Qed.

Lemma calm_ext (st st' : State) (x : BodyRef) :
  world st' = world st -> (forall r, heap st' r = heap st r) ->
  calm st x -> calm st' x.
Proof.
  intros Hw He [Hs Ha]. unfold calm, asleep_projectile in *.
  now rewrite Hw, !He.
Qed.

Lemma beforeUpdate_part_stable (st : State) (x : BodyRef) :
  calm st x ->
  world (beforeUpdate_part st x) = world st /\
  forall r, heap (beforeUpdate_part st x) r = heap st r.
Proof.
  intros [Hs Ha]. unfold beforeUpdate_part.
  destruct (asleep_projectile st x).
  - cbn [world heap with_world]. split; [ | reflexivity ].
    now apply remove_absent, Hs.
  - split; [reflexivity | ]. intros r. rewrite assign_velocityPrev_heap.
    destruct (Nat.eqb_spec r x) as [-> | _]; [ | reflexivity ].
    specialize (Ha eq_refl). destruct (heap st x). cbn in *. now rewrite Ha.
Qed.

Lemma beforeUpdate_parts_stable (ps : list BodyRef) (st : State) :
  (forall x, In x ps -> calm st x) ->
  world (fold_left beforeUpdate_part ps st) = world st /\
  forall r, heap (fold_left beforeUpdate_part ps st) r = heap st r.
Proof.
  revert st. induction ps as [ | x ps IH]; intros st Hall; [now split | ].
  cbn [fold_left].
  destruct (beforeUpdate_part_stable st x (Hall x (or_introl eq_refl))) as (Hw & He).
  destruct (IH (beforeUpdate_part st x)) as (Hw' & He').
  { intros y Hy. apply (calm_ext st _ y Hw He). apply Hall. now right. }
  split; [congruence | ]. intros r. now rewrite He', He.
Qed.

Lemma beforeUpdate_bodies_stable (l : list BodyRef) (st : State) :
  (forall b, In b l -> forall x, In x (parts (heap st b)) -> calm st x) ->
  world (fold_left beforeUpdate_body l st) = world st /\
  forall r, heap (fold_left beforeUpdate_body l st) r = heap st r.
Proof.
  revert st. induction l as [ | b l IH]; intros st Hall; [now split | ].
  cbn [fold_left]. unfold beforeUpdate_body at 2 4.
  destruct (beforeUpdate_parts_stable (parts (heap st b)) st
              (Hall b (or_introl eq_refl))) as (Hw & He).
  set (st1 := fold_left beforeUpdate_part (parts (heap st b)) st) in *.
  destruct (IH st1) as (Hw' & He').
  { intros c Hc x Hx. rewrite He in Hx.
    apply (calm_ext st st1 x Hw He). apply (Hall c); [now right | exact Hx]. }
  split; [congruence | ]. intros r. now rewrite He', He.
Qed.

(** X19: a second pre-step pass right after the first finds nothing to do.
    In a world whose bodies are among their own parts, running the handler
    on its own result changes neither the world nor any body. *)
Theorem beforeUpdate_idempotent (st : State) :
  (forall b, In b (Composite.allBodies (world st)) -> In b (parts (heap st b))) ->
  world (beforeUpdate (beforeUpdate st)) = world (beforeUpdate st) /\
  vecs (beforeUpdate (beforeUpdate st)) = vecs (beforeUpdate st) /\
  forall r, heap (beforeUpdate (beforeUpdate st)) r = heap (beforeUpdate st) r.
Proof.
  intros Hself.
  destruct (beforeUpdate_bodies_frame (Composite.allBodies (world st)) st)
    as (_ & Hs & Hle & _).
  fold (beforeUpdate st) in Hs, Hle.
  set (st1 := beforeUpdate st) in *.
  assert (Hcalm : forall b, In b (Composite.allBodies (world st1)) ->
                  forall x, In x (parts (heap st1 b)) -> calm st1 x).
  { intros b Hb1 x Hx.
    assert (Hb : In b (Composite.allBodies (world st))).
    { apply occurrences_In. apply occurrences_In in Hb1. specialize (Hle b). lia. }
    destruct (Hs b) as (_ & _ & _ & _ & _ & _ & _ & Hparts & _).
    rewrite Hparts in Hx.
    pose proof (asleep_projectile_frame st st1 x (Hs x)) as Hflag.
    split; rewrite Hflag; intros Hx'.
    - apply (beforeUpdate_bodies_asleep (Composite.allBodies (world st)) st x Hx').
      + apply Hself.
      + apply Nat.le_refl.
    - destruct (Hs x) as (_ & _ & _ & _ & _ & -> & _).
      apply beforeUpdate_bodies_snapshot; [exact Hx' | ].
      left. exists b. now split. }
  destruct (beforeUpdate_bodies_stable (Composite.allBodies (world st1)) st1 Hcalm)
    as (Hw & He).
  split; [exact Hw | split; [ | exact He ] ].
  apply beforeUpdate_vecs.
Qed.

Lemma beforeUpdate_idempotent_witness :
  Composite.allBodies (world (beforeUpdate (beforeUpdate resting_scene))) = [0%nat] /\
  velocityPrev (heap (beforeUpdate (beforeUpdate resting_scene)) 0%nat) = Some 0%nat.
Proof.
  destruct (beforeUpdate_idempotent resting_scene) as (Hw & _ & Hh).
  - intros b [<- | [<- | []]]; left; reflexivity.
  - rewrite Hw, Hh. split; reflexivity.
Defined.
